(** * host_buffer: a resizable host buffer over a stream-ordered allocator

    Shallow embedding of [ML::host_buffer<T>]
    (cuML/src/common/host_buffer.hpp) and proofs about its lifetime and
    resizing logic.

    The class has three mutable fields ([_size], [_capacity], [_data]) and a
    shared handle to an allocator.  Its member functions talk to two
    collaborators that live outside the header: the allocator
    ([allocate] / [deallocate]) and the CUDA runtime ([cudaMemcpyAsync],
    [cudaStreamSynchronize]).  The embedding is in two layers:

    - the member functions are programs in a small state-and-exception
      monad over the fields, the allocator's own state and the
      chronological list of calls made to the two collaborators;
    - the effect of those calls on host memory is given separately, by
      replaying the recorded calls over a heap of blocks ([exec_calls]).

    Calls on one stream take effect in submission order; the replay applies
    them in that order.  Ordering between different streams is not
    modelled. *)

From Stdlib Require Import ZArith Lia List.
From stdpp Require Import base decidable option list gmap.

Local Open Scope Z_scope.

(** ** Machine integers and pointers *)

(** [std::size_t] on the 64-bit hosts cuML targets. *)
Definition SIZE_MAX : Z := 2 ^ 64 - 1.

Definition is_size_t (z : Z) : Prop := 0 <= z <= SIZE_MAX.

(** Unsigned multiplication in [size_t]: the product wraps modulo 2^64. *)
Definition size_mul (a b : Z) : Z := (a * b) mod 2 ^ 64.

(** Raw addresses are block identifiers; [0] is the null pointer. *)
Definition pointer : Type := Z.
Definition nullptr : pointer := 0.

Definition cudaStream_t : Type := Z.

(** The stream the constructor and the destructor pass as literal [0]. *)
Definition default_stream : cudaStream_t := 0.

(** ** The allocator interface *)

(** Modelled from the spec: the [hostAllocator] interface (declared in
    cuML.hpp, which is not among the sources).  Section 6 of the spec gives
    [allocate(byte_size, stream) -> raw_pointer], which "fails with an
    allocation error when memory cannot be supplied", and
    [deallocate(pointer, byte_size, stream) -> void].  The allocator's
    internal state has type [A]; a failing [allocate] answers [None]. *)
Class hostAllocator (A : Type) : Type := {
  allocate : A -> Z -> cudaStream_t -> option pointer * A;
  deallocate : A -> pointer -> Z -> cudaStream_t -> A
}.

(** ** Calls to the collaborators *)

Inductive call : Type :=
| Allocate (n : Z) (stream : cudaStream_t) (ret : option pointer)
| Deallocate (p : pointer) (n : Z) (stream : cudaStream_t)
| MemcpyAsync (dst src : pointer) (count : Z) (stream : cudaStream_t)
| StreamSynchronize (stream : cudaStream_t).

(** ** The object and the machine around it *)

Record host_buffer : Type := mk_host_buffer {
  _size : Z;
  _capacity : Z;
  _data : pointer
}.

Record machine (A : Type) : Type := mk_machine {
  this : host_buffer;
  allocator : A;
  calls : list call
}.

Arguments mk_machine {A} _ _ _.
Arguments this {A} _.
Arguments allocator {A} _.
Arguments calls {A} _.

Inductive exn : Type :=
| allocation_error.

Inductive outcome (X : Type) : Type :=
| Ok (x : X)
| Throw (e : exn).

Arguments Ok {X} _.
Arguments Throw {X} _.

(** ** The monad of member functions *)

Definition M (A X : Type) : Type := machine A -> outcome X * machine A.

Definition ret {A X} (x : X) : M A X := fun m => (Ok x, m).

Definition bind {A X Y} (c : M A X) (k : X -> M A Y) : M A Y :=
  fun m =>
    match c m with
    | (Ok x, m') => k x m'
    | (Throw e, m') => (Throw e, m')
    end.

Declare Scope member_scope.
Delimit Scope member_scope with member.

Notation "x <- c ;; k" := (bind c (fun x => k))
  (at level 100, c at next level, right associativity) : member_scope.
Notation "c ;; k" := (bind c (fun _ => k))
  (at level 100, right associativity) : member_scope.

Local Open Scope member_scope.

Definition when {A} (b : bool) (c : M A unit) : M A unit :=
  if b then c else ret tt.

(** Reading and assigning the fields. *)
Definition get {A X} (field : host_buffer -> X) : M A X :=
  fun m => (Ok (field (this m)), m).

Definition set_size {A} (v : Z) : M A unit :=
  fun m =>
    (Ok tt,
     mk_machine (mk_host_buffer v (_capacity (this m)) (_data (this m)))
                (allocator m) (calls m)).

Definition set_capacity {A} (v : Z) : M A unit :=
  fun m =>
    (Ok tt,
     mk_machine (mk_host_buffer (_size (this m)) v (_data (this m)))
                (allocator m) (calls m)).

Definition set_data {A} (v : pointer) : M A unit :=
  fun m =>
    (Ok tt,
     mk_machine (mk_host_buffer (_size (this m)) (_capacity (this m)) v)
                (allocator m) (calls m)).

(** [_allocator->allocate(n, stream)]: the call is recorded with its answer;
    a failing allocator throws out of the member function. *)
Definition allocator_allocate {A} `{hostAllocator A}
    (n : Z) (stream : cudaStream_t) : M A pointer :=
  fun m =>
    match allocate (allocator m) n stream with
    | (Some p, a') =>
        (Ok p, mk_machine (this m) a' (calls m ++ [Allocate n stream (Some p)]))
    | (None, a') =>
        (Throw allocation_error,
         mk_machine (this m) a' (calls m ++ [Allocate n stream None]))
    end.

(** [_allocator->deallocate(p, n, stream)]. *)
Definition allocator_deallocate {A} `{hostAllocator A}
    (p : pointer) (n : Z) (stream : cudaStream_t) : M A unit :=
  fun m =>
    (Ok tt,
     mk_machine (this m) (deallocate (allocator m) p n stream)
                (calls m ++ [Deallocate p n stream])).

(** Modelled from the spec: [CUDA_CHECK] (ml-prims/src/utils.h) and the CUDA
    runtime calls it wraps are not among the sources.  Section 5 of the spec:
    once a copy is submitted to a stream "it runs to completion or the whole
    process/device context fails fatally"; section 7 lists allocation failure
    as the only error a caller sees.  So a runtime call is recorded and
    reports success, and [CUDA_CHECK] falls through. *)
Definition cudaMemcpyAsync {A}
    (dst src : pointer) (count : Z) (stream : cudaStream_t) : M A unit :=
  fun m =>
    (Ok tt,
     mk_machine (this m) (allocator m)
                (calls m ++ [MemcpyAsync dst src count stream])).

Definition cudaStreamSynchronize {A} (stream : cudaStream_t) : M A unit :=
  fun m =>
    (Ok tt,
     mk_machine (this m) (allocator m) (calls m ++ [StreamSynchronize stream])).

(** ** The member functions *)

Section HostBuffer.

Context {A : Type} `{HA : hostAllocator A}.

(** [sizeof(value_type)]. *)
Variable sizeofT : Z.

(** [host_buffer(allocator, n)]: the initialiser list sets the three
    fields in declaration order, then the body allocates. *)
Definition construct (n : Z) : M A unit :=
  set_size n ;;
  set_capacity n ;;
  set_data nullptr ;;
  cap <- get _capacity ;;
  when (0 <? cap)
    (p <- allocator_allocate (size_mul cap sizeofT) default_stream ;;
     set_data p ;;
     cudaStreamSynchronize default_stream).

(** [~host_buffer()]. *)
Definition destroy : M A unit :=
  d <- get _data ;;
  when (negb (d =? nullptr))
    (cap <- get _capacity ;;
     allocator_deallocate d (size_mul cap sizeofT) default_stream).

(** [data()], [size()], [begin()], [end()]: queries.  A position inside the
    block is the block's address with an element offset, so [_data + _size]
    is [(_data, _size)]. *)
Definition data : M A pointer := get _data.

Definition size : M A Z := get _size.

Definition begin_ : M A (pointer * Z) :=
  d <- get _data ;; ret (d, 0).

Definition end_ : M A (pointer * Z) :=
  d <- get _data ;; sz <- get _size ;; ret (d, sz).

Definition getAllocator : M A A := fun m => (Ok (allocator m), m).

(** [resize(new_size, stream)]. *)
Definition resize (new_size : Z) (stream : cudaStream_t) : M A unit :=
  cap <- get _capacity ;;
  when (cap <? new_size)
    (new_data <- allocator_allocate (size_mul new_size sizeofT) stream ;;
     sz <- get _size ;;
     when (0 <? sz)
       (d <- get _data ;;
        cudaMemcpyAsync new_data d (size_mul sz sizeofT) stream) ;;
     d <- get _data ;;
     when (negb (d =? nullptr))
       (cap' <- get _capacity ;;
        allocator_deallocate d (size_mul cap' sizeofT) stream) ;;
     set_data new_data ;;
     set_capacity new_size) ;;
  set_size new_size.

(** [clear()]. *)
Definition clear : M A unit := set_size 0.

(** [release(stream)]. *)
Definition release (stream : cudaStream_t) : M A unit :=
  d <- get _data ;;
  when (negb (d =? nullptr))
    (cap <- get _capacity ;;
     allocator_deallocate d (size_mul cap sizeofT) stream) ;;
  set_data nullptr ;;
  set_capacity 0 ;;
  set_size 0.

End HostBuffer.

(** ** Whole lifetimes *)

Section Lifetime.

Context {A : Type} `{HA : hostAllocator A}.
Variable sizeofT : Z.

(** [operator[](pos)] hands out the address of [_data[pos]] and touches
    nothing. *)
Definition subscript (pos : Z) : M A (pointer * Z) :=
  d <- get _data ;; ret (d, pos).

(** What a caller can do with a constructed buffer. *)
Inductive operation : Type :=
| op_resize (new_size : Z) (stream : cudaStream_t)
| op_clear
| op_release (stream : cudaStream_t)
| op_subscript (pos : Z)
| op_data
| op_size
| op_begin
| op_end
| op_getAllocator.

Definition perform (o : operation) : M A unit :=
  match o with
  | op_resize new_size stream => resize sizeofT new_size stream
  | op_clear => clear
  | op_release stream => release sizeofT stream
  | op_subscript pos => subscript pos ;; ret tt
  | op_data => data ;; ret tt
  | op_size => size ;; ret tt
  | op_begin => begin_ ;; ret tt
  | op_end => end_ ;; ret tt
  | op_getAllocator => getAllocator ;; ret tt
  end.

(** The caller goes on with the object after an operation, also when the
    operation threw: the exception is caught or unwinds the stack, and the
    object is still the caller's to use and to destroy. *)
Definition step (m : machine A) (o : operation) : machine A :=
  snd (perform o m).

Definition run (ops : list operation) (m : machine A) : machine A :=
  fold_left step ops m.

(** Storage for an object that is about to be constructed, next to an
    allocator that nobody has called yet. *)
Definition raw (a : A) : machine A :=
  mk_machine (mk_host_buffer 0 0 nullptr) a [].

(** Construction, any operations, destruction.  A constructor that throws
    leaves no object behind, and no destructor runs. *)
Definition lifetime (n : Z) (ops : list operation) (a : A) : machine A :=
  match construct sizeofT n (raw a) with
  | (Ok _, m) => snd (destroy sizeofT (run ops m))
  | (Throw _, m) => m
  end.

(** A run of [resize] calls, one after the other. *)
Fixpoint resize_all (targets : list (Z * cudaStream_t)) : M A unit :=
  match targets with
  | [] => ret tt
  | (new_size, stream) :: rest =>
      resize sizeofT new_size stream ;; resize_all rest
  end.

End Lifetime.

(** ** Book-keeping over the recorded calls *)

(** The blocks handed out and not yet returned, each with the byte size it
    was requested with.  A [deallocate] must name one of them with the same
    byte size, and takes it off the list.  An [allocate] that answers the
    null pointer hands out no block: there is nothing to return. *)
Fixpoint take_out (x : pointer * Z) (live : list (pointer * Z))
    : option (list (pointer * Z)) :=
  match live with
  | [] => None
  | y :: rest =>
      if decide (x = y) then Some rest
      else match take_out x rest with
           | Some rest' => Some (y :: rest')
           | None => None
           end
  end.

Definition settle (live : list (pointer * Z)) (c : call)
    : option (list (pointer * Z)) :=
  match c with
  | Allocate n _ (Some p) =>
      if p =? nullptr then Some live else Some ((p, n) :: live)
  | Allocate _ _ None => Some live
  | Deallocate p n _ => take_out (p, n) live
  | MemcpyAsync _ _ _ _ => Some live
  | StreamSynchronize _ => Some live
  end.

Fixpoint outstanding_from (live : list (pointer * Z)) (cs : list call)
    : option (list (pointer * Z)) :=
  match cs with
  | [] => Some live
  | c :: rest =>
      match settle live c with
      | Some live' => outstanding_from live' rest
      | None => None
      end
  end.

Definition outstanding (cs : list call) : option (list (pointer * Z)) :=
  outstanding_from [] cs.

Definition is_allocation (c : call) : bool :=
  match c with
  | Allocate _ _ (Some p) => negb (p =? nullptr)
  | _ => false
  end.

Definition is_deallocation (c : call) : bool :=
  match c with Deallocate _ _ _ => true | _ => false end.

Fixpoint tally (f : call -> bool) (cs : list call) : nat :=
  match cs with
  | [] => O
  | c :: rest => ((if f c then 1 else 0) + tally f rest)%nat
  end.

(** How many [allocate] calls handed out a block, and how many
    [deallocate] calls were made. *)
Definition allocations (cs : list call) : nat := tally is_allocation cs.

Definition deallocations (cs : list call) : nat := tally is_deallocation cs.

(** ** The data-model invariants *)

Definition invariant (b : host_buffer) : Prop :=
  0 <= _size b <= _capacity b /\ (_data b <> nullptr <-> 0 < _capacity b).

(** The allocator's side of the contract: a successful [allocate] never
    answers the null pointer. *)
Definition returns_nonnull (A : Type) `{hostAllocator A} : Prop :=
  forall a n stream p a',
    allocate a n stream = (Some p, a') -> p <> nullptr.

(** The allocator can always supply memory. *)
Definition never_fails (A : Type) `{hostAllocator A} : Prop :=
  forall a n stream, fst (allocate a n stream) <> None.

(** The byte size the buffer names when it returns its block. *)
Definition held (sizeofT : Z) (b : host_buffer) : list (pointer * Z) :=
  if _data b =? nullptr then []
  else [(_data b, size_mul (_capacity b) sizeofT)].

(** ** Host memory *)

Section Memory.

(** The element type and [sizeof(value_type)]. *)
Variable T : Type.
Variable sizeofT : Z.

(** A block holds as many whole elements as fit in its bytes.  A cell that
    was never written holds no definite value ([None]). *)
Record block : Type := mk_block {
  block_bytes : Z;
  cells : list (option T)
}.

Definition fresh_block (n : Z) : block :=
  mk_block n (replicate (Z.to_nat (n / sizeofT)) None).

(** Copying [count] bytes overwrites the whole elements those bytes cover;
    an element covered only in part is left without a definite value. *)
Definition copy_cells (count : Z) (src dst : list (option T))
    : list (option T) :=
  let k := Z.to_nat (count / sizeofT) in
  if count mod sizeofT =? 0 then take k src ++ drop k dst
  else take k src ++ None :: drop (S k) dst.

(** The effect of one recorded call on memory; [None] when the call is
    outside what memory allows: an allocator answering null or a block
    that is still live, a [deallocate] of a block that is not live or with
    another byte size, a copy that runs past the end of a block. *)
Definition exec_call (h : gmap Z block) (c : call) : option (gmap Z block) :=
  match c with
  | Allocate n _ (Some p) =>
      if decide (p <> nullptr /\ h !! p = None)
      then Some (<[p := fresh_block n]> h)
      else None
  | Allocate _ _ None => Some h
  | Deallocate p n _ =>
      match h !! p with
      | Some blk =>
          if decide (block_bytes blk = n) then Some (delete p h) else None
      | None => None
      end
  | MemcpyAsync dst src count _ =>
      match h !! dst, h !! src with
      | Some bd, Some bs =>
          if decide (0 <= count <= block_bytes bd /\ count <= block_bytes bs)
          then Some (<[dst := mk_block (block_bytes bd)
                                       (copy_cells count (cells bs) (cells bd))]> h)
          else None
      | _, _ => None
      end
  | StreamSynchronize _ => Some h
  end.

Fixpoint exec_calls (h : gmap Z block) (cs : list call)
    : option (gmap Z block) :=
  match cs with
  | [] => Some h
  | c :: rest =>
      match exec_call h c with
      | Some h' => exec_calls h' rest
      | None => None
      end
  end.

(** Reading [_data[pos]]. *)
Definition element (h : gmap Z block) (b : host_buffer) (pos : Z)
    : option T :=
  match h !! _data b with
  | Some blk =>
      if decide (0 <= pos) then
        match cells blk !! Z.to_nat pos with
        | Some c => c
        | None => None
        end
      else None
  | None => None
  end.

(** Writing [_data[pos] = v]. *)
Definition assign (h : gmap Z block) (b : host_buffer) (pos : Z) (v : T)
    : option (gmap Z block) :=
  match h !! _data b with
  | Some blk =>
      if decide (0 <= pos < Z.of_nat (length (cells blk)))
      then Some (<[_data b := mk_block (block_bytes blk)
                                       (<[Z.to_nat pos := Some v]> (cells blk))]> h)
      else None
  | None => None
  end.

(** Writing [vs] to [_data[pos]], [_data[pos + 1]], ... *)
Fixpoint fill (h : gmap Z block) (b : host_buffer) (pos : Z) (vs : list T)
    : option (gmap Z block) :=
  match vs with
  | [] => Some h
  | v :: rest =>
      match assign h b pos v with
      | Some h' => fill h' b (pos + 1) rest
      | None => None
      end
  end.

(** The buffer's block is live and is as large as [_capacity] says. *)
Definition owns (h : gmap Z block) (b : host_buffer) : Prop :=
  match h !! _data b with
  | Some blk =>
      block_bytes blk = _capacity b * sizeofT /\
      Z.of_nat (length (cells blk)) = _capacity b
  | None => _data b = nullptr
  end.

End Memory.

Arguments block_bytes {T} _.
Arguments cells {T} _.
Arguments mk_block {T} _ _.
Arguments fresh_block {T} _ _.
Arguments exec_call {T} _ _ _.
Arguments exec_calls {T} _ _ _.
Arguments element {T} _ _ _.
Arguments assign {T} _ _ _ _.
Arguments fill {T} _ _ _ _.
Arguments owns {T} _ _ _.

(** ** An allocator test double *)

(** A pool with a byte budget: it hands out block after block and fails once
    the bytes in use would pass the budget. *)
Record pool : Type := mk_pool {
  next_block : positive;
  in_use : Z;
  budget : Z
}.

#[export] Instance pool_allocator : hostAllocator pool := {|
  allocate a n _ :=
    if decide (in_use a + n <= budget a)
    then (Some (Z.pos (next_block a)),
          mk_pool (Pos.succ (next_block a)) (in_use a + n) (budget a))
    else (None, a);
  deallocate a _ n _ :=
    mk_pool (next_block a) (in_use a - n) (budget a)
|}.

(** The pool of the spec's scenario: 1000 bytes. *)
Definition small_pool : pool := mk_pool 1 0 1000.

(** A pool that never runs dry. *)
Record endless : Type := mk_endless { next_endless : positive }.

#[export] Instance endless_allocator : hostAllocator endless := {|
  allocate a _ _ :=
    (Some (Z.pos (next_endless a)), mk_endless (Pos.succ (next_endless a)));
  deallocate a _ _ _ := a
|}.

(** [sizeof(int32_t)]. *)
Definition sizeof_int32 : Z := 4.

(** ** Arguments of the operations *)

(** [size_type] arguments are unsigned. *)
Definition well_typed (o : operation) : Prop :=
  match o with
  | op_resize new_size _ => is_size_t new_size
  | op_subscript pos => is_size_t pos
  | _ => True
  end.

(** [resize] arguments whose byte size fits in [size_t]. *)
Definition fits (sizeofT : Z) (o : operation) : Prop :=
  match o with
  | op_resize new_size _ => 0 <= new_size /\ is_size_t (new_size * sizeofT)
  | _ => True
  end.

(** Is the operation one of the queries? *)
Definition is_query (o : operation) : bool :=
  match o with
  | op_resize _ _ | op_clear | op_release _ => false
  | _ => true
  end.

(** ** The stream a call is submitted on *)

Definition call_stream (c : call) : cudaStream_t :=
  match c with
  | Allocate _ stream _ => stream
  | Deallocate _ _ stream => stream
  | MemcpyAsync _ _ _ stream => stream
  | StreamSynchronize stream => stream
  end.

(** ** How long a prefix of the elements survives *)

(** Out of the first [k] elements, the number an operation cannot lose: a
    [resize] keeps what is below both the old and the new size, [clear] and
    [release] promise nothing, a query keeps all. *)
Definition keeps (o : operation) (k : Z) : Z :=
  match o with
  | op_resize new_size _ => Z.min k new_size
  | op_clear => Z.min k 0
  | op_release _ => Z.min k 0
  | _ => k
  end.

Definition kept (ops : list operation) (k : Z) : Z :=
  fold_left (fun k o => keeps o k) ops k.

(** ** Allocators that agree with memory *)

(** Modelled from the spec: the allocator is an outside collaborator
    (section 1), so what ties its state to the blocks that are live is a
    relation [I] it keeps: a block it hands out is not null and not live,
    the null pointer is never live, and [I] survives a failed request, the
    return of a block and a write into a live block. *)
Record tracks {A T : Type} `{hostAllocator A} (sizeofT : Z)
    (I : A -> gmap Z (block T) -> Prop) : Prop := mk_tracks {
  tracks_null : forall a h, I a h -> h !! nullptr = None;
  tracks_allocate : forall a n stream p a' h,
    I a h -> allocate a n stream = (Some p, a') ->
    p <> nullptr /\ h !! p = None /\ I a' (<[p := fresh_block sizeofT n]> h);
  tracks_fail : forall a n stream a' h,
    I a h -> allocate a n stream = (None, a') -> I a' h;
  tracks_deallocate : forall a p n stream h,
    I a h -> I (deallocate a p n stream) (delete p h);
  tracks_write : forall a p blk h,
    I a h -> is_Some (h !! p) -> I a (<[p := blk]> h)
}.

(** The pool hands out rising addresses: every live block lies below the
    next one. *)
Definition pool_live {T : Type} (a : pool) (h : gmap Z (block T)) : Prop :=
  forall p blk, h !! p = Some blk -> 0 < p < Z.pos (next_block a).

(** A buffer in good standing over memory [h], where [h0] is memory as it
    was before the buffer made its first call: the invariants hold, the
    capacity's byte size fits in [size_t], the allocator agrees with [h],
    the buffer owns its block, and everything but that block is as in
    [h0]. *)
Definition sound {A T : Type} `{hostAllocator A} (sizeofT : Z)
    (I : A -> gmap Z (block T) -> Prop)
    (h0 : gmap Z (block T)) (m : machine A) (h : gmap Z (block T)) : Prop :=
  invariant (this m)
  /\ is_size_t (_capacity (this m) * sizeofT)
  /\ I (allocator m) h
  /\ owns sizeofT h (this m)
  /\ delete (_data (this m)) h = h0.

(** * Proofs *)

(** ** The member functions, equation by equation *)

Ltac member_unfold :=
  unfold construct, destroy, resize, clear, release, data, size, begin_, end_,
    getAllocator, subscript, when, bind, ret, get, set_size, set_capacity,
    set_data, allocator_allocate, allocator_deallocate, cudaMemcpyAsync,
    cudaStreamSynchronize; simpl.

Section Equations.

Context {A : Type} `{HA : hostAllocator A}.
Variable sizeofT : Z.

Lemma resize_keep_eq new_size stream (m : machine A) :
  (_capacity (this m) <? new_size) = false ->
  resize sizeofT new_size stream m =
    (Ok tt,
     mk_machine
       (mk_host_buffer new_size (_capacity (this m)) (_data (this m)))
       (allocator m) (calls m)).
Proof.
  intros Hcap. member_unfold. rewrite Hcap. reflexivity.
Qed.

Lemma resize_throw_eq new_size stream (m : machine A) a' :
  (_capacity (this m) <? new_size) = true ->
  allocate (allocator m) (size_mul new_size sizeofT) stream = (None, a') ->
  resize sizeofT new_size stream m =
    (Throw allocation_error,
     mk_machine (this m) a'
       (calls m ++ [Allocate (size_mul new_size sizeofT) stream None])).
Proof.
  intros Hcap Hal. member_unfold. rewrite Hcap. simpl.
  rewrite Hal. reflexivity.
Qed.

Lemma resize_grow_eq new_size stream (m : machine A) p a' :
  (_capacity (this m) <? new_size) = true ->
  allocate (allocator m) (size_mul new_size sizeofT) stream = (Some p, a') ->
  resize sizeofT new_size stream m =
    (Ok tt,
     mk_machine
       (mk_host_buffer new_size new_size p)
       (if _data (this m) =? nullptr then a'
        else deallocate a' (_data (this m))
               (size_mul (_capacity (this m)) sizeofT) stream)
       (calls m
        ++ [Allocate (size_mul new_size sizeofT) stream (Some p)]
        ++ (if 0 <? _size (this m)
            then [MemcpyAsync p (_data (this m))
                    (size_mul (_size (this m)) sizeofT) stream]
            else [])
        ++ (if _data (this m) =? nullptr then []
            else [Deallocate (_data (this m))
                    (size_mul (_capacity (this m)) sizeofT) stream]))).
Proof.
  intros Hcap Hal. destruct m as [[sz cap d] a cs]; simpl in *.
  member_unfold. rewrite Hcap. simpl. rewrite Hal. simpl.
  destruct sz as [|sz|sz], d as [|d|d]; simpl;
    rewrite <- ?app_assoc; reflexivity.
Qed.

Lemma release_eq stream (m : machine A) :
  release sizeofT stream m =
    (Ok tt,
     mk_machine
       (mk_host_buffer 0 0 nullptr)
       (if _data (this m) =? nullptr then allocator m
        else deallocate (allocator m) (_data (this m))
               (size_mul (_capacity (this m)) sizeofT) stream)
       (calls m
        ++ (if _data (this m) =? nullptr then []
            else [Deallocate (_data (this m))
                    (size_mul (_capacity (this m)) sizeofT) stream]))).
Proof.
  destruct m as [[sz cap d] a cs]; simpl. member_unfold.
  destruct d as [|d|d]; simpl; rewrite ?app_nil_r; reflexivity.
Qed.

Lemma destroy_eq (m : machine A) :
  destroy sizeofT m =
    (Ok tt,
     mk_machine
       (this m)
       (if _data (this m) =? nullptr then allocator m
        else deallocate (allocator m) (_data (this m))
               (size_mul (_capacity (this m)) sizeofT) default_stream)
       (calls m
        ++ (if _data (this m) =? nullptr then []
            else [Deallocate (_data (this m))
                    (size_mul (_capacity (this m)) sizeofT)
                    default_stream]))).
Proof.
  destruct m as [[sz cap d] a cs]; simpl. member_unfold.
  destruct d as [|d|d]; simpl; rewrite ?app_nil_r; reflexivity.
Qed.

Lemma construct_eq n (m : machine A) :
  construct sizeofT n m =
    if 0 <? n then
      match allocate (allocator m) (size_mul n sizeofT) default_stream with
      | (Some p, a') =>
          (Ok tt,
           mk_machine (mk_host_buffer n n p) a'
             (calls m ++ [Allocate (size_mul n sizeofT) default_stream (Some p);
                          StreamSynchronize default_stream]))
      | (None, a') =>
          (Throw allocation_error,
           mk_machine (mk_host_buffer n n nullptr) a'
             (calls m ++ [Allocate (size_mul n sizeofT) default_stream None]))
      end
    else
      (Ok tt, mk_machine (mk_host_buffer n n nullptr) (allocator m) (calls m)).
Proof.
  destruct m as [[sz cap d] a cs]; simpl. member_unfold.
  destruct (0 <? n); simpl; [|reflexivity].
  destruct (allocate a (size_mul n sizeofT) default_stream) as [[p|] a'];
    simpl; rewrite <- ?app_assoc; reflexivity.
Qed.

Lemma size_mul_exact a b :
  is_size_t (a * b) -> size_mul a b = a * b.
Proof.
  unfold is_size_t, SIZE_MAX, size_mul. intros Hr.
  apply Z.mod_small. lia.
Qed.

End Equations.

(** ** Single calls *)

Section Calls.

Context {A : Type} `{HA : hostAllocator A}.
Variable sizeofT : Z.

(** C7: when [new_size <= _capacity], [resize(new_size, stream)] returns
    normally with a machine that differs from the one it started from in
    [_size] alone, which is now [new_size]: the list of calls and the
    allocator are the same (no [allocate], no [deallocate]), and so are
    [_capacity] and [_data].  This covers shrinking and growing back within
    the spare capacity. *)
Theorem resize_within_capacity new_size stream (m : machine A) :
  new_size <= _capacity (this m) ->
  resize sizeofT new_size stream m =
    (Ok tt,
     mk_machine
       (mk_host_buffer new_size (_capacity (this m)) (_data (this m)))
       (allocator m) (calls m)).
Proof.
  intros Hle. apply resize_keep_eq. apply Z.ltb_ge. exact Hle.
Qed.

(** C8: [clear()] returns normally with [_size = 0] and everything else as
    it was: same [_capacity], same [_data], same list of calls and same
    allocator.  A [resize] that follows with a target within the capacity
    held before the [clear] still makes no call and keeps [_capacity] and
    [_data]. *)
Theorem clear_only_resets_size new_size stream (m : machine A) :
  new_size <= _capacity (this m) ->
  clear m =
    (Ok tt,
     mk_machine (mk_host_buffer 0 (_capacity (this m)) (_data (this m)))
       (allocator m) (calls m))
  /\ resize sizeofT new_size stream (snd (clear m)) =
    (Ok tt,
     mk_machine
       (mk_host_buffer new_size (_capacity (this m)) (_data (this m)))
       (allocator m) (calls m)).
Proof.
  intros Hle. split; [reflexivity|].
  rewrite resize_keep_eq; [reflexivity|].
  simpl. apply Z.ltb_ge. exact Hle.
Qed.

(** C9: when [resize] has to grow and the allocator's [allocate] fails,
    [resize] throws; the three fields are exactly what they were, and the
    only call this [resize] made is the failed [allocate] (in particular no
    [deallocate]). *)
Theorem resize_failed_allocation new_size stream (m : machine A) a' :
  _capacity (this m) < new_size ->
  allocate (allocator m) (size_mul new_size sizeofT) stream = (None, a') ->
  resize sizeofT new_size stream m =
    (Throw allocation_error,
     mk_machine (this m) a'
       (calls m ++ [Allocate (size_mul new_size sizeofT) stream None])).
Proof.
  intros Hlt Hal. apply resize_throw_eq; [|exact Hal].
  apply Z.ltb_lt. exact Hlt.
Qed.

(** C10: after [release(s1)] the buffer has [_size = 0], [_capacity = 0]
    and a null [_data], and a second [release(s2)], on any stream, returns
    normally and gives back the very same machine: no call is added and no
    field changes. *)
Theorem release_idempotent s1 s2 (m : machine A) :
  this (snd (release sizeofT s1 m)) = mk_host_buffer 0 0 nullptr
  /\ release sizeofT s2 (snd (release sizeofT s1 m)) =
       (Ok tt, snd (release sizeofT s1 m)).
Proof.
  rewrite (release_eq sizeofT s1 m). simpl. split; [reflexivity|].
  rewrite release_eq. simpl. rewrite app_nil_r. reflexivity.
Qed.

(** C5: on a buffer that satisfies the data-model invariants,
    [release(stream)] makes exactly one call, the [deallocate] of the
    current block on [stream], when [_capacity > 0], and no call at all
    otherwise; afterwards [size()] is [0], [_capacity] is [0] and
    [data()] answers the null pointer. *)
Theorem release_frees_held_block stream (m : machine A) :
  invariant (this m) ->
  calls (snd (release sizeofT stream m)) =
    calls m
    ++ (if 0 <? _capacity (this m)
        then [Deallocate (_data (this m))
                (size_mul (_capacity (this m)) sizeofT) stream]
        else [])
  /\ fst (release sizeofT stream m) = Ok tt
  /\ fst (size (snd (release sizeofT stream m))) = Ok 0
  /\ _capacity (this (snd (release sizeofT stream m))) = 0
  /\ fst (data (snd (release sizeofT stream m))) = Ok nullptr.
Proof.
  intros [_ Hdata]. rewrite release_eq. simpl.
  repeat split; try reflexivity.
  destruct (Z.eqb_spec (_data (this m)) nullptr) as [Hnull|Hheld].
  - destruct (Z.ltb_spec 0 (_capacity (this m))) as [Hpos|_]; [|reflexivity].
    apply Hdata in Hpos. contradiction.
  - apply Hdata in Hheld. apply Z.ltb_lt in Hheld. rewrite Hheld.
    reflexivity.
Qed.

(** C6: for an initial size [n] that is valid, that is, [n] and the byte
    size [n * sizeof(T)] both fit in [size_t], and an allocator that never
    answers null on success: the constructor with [n = 0] makes no call and
    leaves [_data] null; with [n > 0] it calls [allocate] with exactly
    [n * sizeof(T)] bytes on the default stream and, when that succeeds,
    synchronizes the default stream and holds the non-null block; it throws
    only when that [allocate] fails.  Whenever it returns, [size()] and
    [_capacity] are both [n]. *)
Theorem construct_exact n (m0 : machine A) :
  returns_nonnull A ->
  is_size_t n ->
  is_size_t (n * sizeofT) ->
  construct sizeofT n m0 =
    (if 0 <? n then
       match allocate (allocator m0) (n * sizeofT) default_stream with
       | (Some p, a') =>
           (Ok tt,
            mk_machine (mk_host_buffer n n p) a'
              (calls m0 ++ [Allocate (n * sizeofT) default_stream (Some p);
                            StreamSynchronize default_stream]))
       | (None, a') =>
           (Throw allocation_error,
            mk_machine (mk_host_buffer n n nullptr) a'
              (calls m0 ++ [Allocate (n * sizeofT) default_stream None]))
       end
     else
       (Ok tt,
        mk_machine (mk_host_buffer n n nullptr) (allocator m0) (calls m0)))
  /\ (forall m, construct sizeofT n m0 = (Ok tt, m) ->
        fst (size m) = Ok n
        /\ _capacity (this m) = n
        /\ (0 < n -> fst (data m) <> Ok nullptr)
        /\ (n = 0 -> fst (data m) = Ok nullptr /\ calls m = calls m0)).
Proof.
  intros Hnn Hn Hbytes.
  rewrite construct_eq, (size_mul_exact n sizeofT Hbytes).
  split; [reflexivity|].
  intros m. destruct (Z.ltb_spec 0 n) as [Hpos|Hzero].
  - destruct (allocate (allocator m0) (n * sizeofT) default_stream)
      as [[p|] a'] eqn:Hal; intros Heq; [|discriminate].
    injection Heq as <-. simpl. repeat split; try lia.
    intros _ Hp. injection Hp as Hp. exact (Hnn _ _ _ _ _ Hal Hp).
  - intros Heq. injection Heq as <-. simpl.
    repeat split; try reflexivity; try lia.
Qed.

End Calls.

(** ** Book-keeping lemmas *)

Lemma take_out_length x live live' :
  take_out x live = Some live' -> length live = S (length live').
Proof.
  revert live'. induction live as [|y rest IH]; intros live' Hout.
  - discriminate.
  - simpl in Hout. destruct (decide (x = y)) as [_|_].
    + injection Hout as <-. reflexivity.
    + destruct (take_out x rest) as [rest'|]; [|discriminate].
      injection Hout as <-. simpl. f_equal. apply IH. reflexivity.
Qed.

Lemma take_out_head x live : take_out x (x :: live) = Some live.
Proof.
  simpl. destruct (decide (x = x)) as [_|Hne]; [reflexivity|].
  contradiction.
Qed.

(** With two blocks in hand, returning the older one leaves the newer. *)
Lemma take_out_second x y : take_out x [y; x] = Some [y].
Proof.
  simpl. destruct (decide (x = y)) as [->|_]; [reflexivity|].
  destruct (decide (x = x)) as [_|Hne]; [reflexivity|contradiction].
Qed.

Lemma outstanding_from_app live cs1 cs2 :
  outstanding_from live (cs1 ++ cs2) =
    match outstanding_from live cs1 with
    | Some live' => outstanding_from live' cs2
    | None => None
    end.
Proof.
  revert live. induction cs1 as [|c cs1 IH]; intros live; simpl.
  - reflexivity.
  - destruct (settle live c) as [live'|]; [apply IH|reflexivity].
Qed.

Lemma tally_app f cs1 cs2 :
  tally f (cs1 ++ cs2) = (tally f cs1 + tally f cs2)%nat.
Proof.
  induction cs1 as [|c cs1 IH]; simpl; [reflexivity|].
  rewrite IH. lia.
Qed.

(** Blocks in hand = blocks handed out - blocks returned. *)
Lemma outstanding_from_count live cs live' :
  outstanding_from live cs = Some live' ->
  (length live' + deallocations cs = length live + allocations cs)%nat.
Proof.
  unfold deallocations, allocations.
  revert live. induction cs as [|c cs IH]; intros live Hrun; simpl in *.
  - injection Hrun as <-. lia.
  - destruct (settle live c) as [live1|] eqn:Hc; [|discriminate].
    specialize (IH _ Hrun).
    destruct c as [n s [p|]|p n s|dst src n s|s]; simpl in *;
      try (injection Hc as <-; simpl in *; lia).
    + destruct p as [|p|p]; injection Hc as <-; simpl in *; lia.
    + apply take_out_length in Hc. lia.
Qed.

Lemma outstanding_prefix cs k live :
  outstanding cs = Some live ->
  (deallocations (take k cs) <= allocations (take k cs))%nat.
Proof.
  unfold outstanding. intros Hrun.
  rewrite <- (take_drop k cs), outstanding_from_app in Hrun.
  destruct (outstanding_from [] (take k cs)) as [live1|] eqn:Hpre;
    [|discriminate].
  apply outstanding_from_count in Hpre. simpl in Hpre. lia.
Qed.

Lemma foldr_max_base base l : base <= foldr Z.max base l.
Proof.
  induction l as [|x l IH]; simpl; lia.
Qed.

Lemma foldr_max_mono base base' l :
  base <= base' -> foldr Z.max base l <= foldr Z.max base' l.
Proof.
  intros Hle. induction l as [|x l IH]; simpl; lia.
Qed.

Lemma last_cons_default (x : Z) l d d' :
  List.last (x :: l) d = List.last (x :: l) d'.
Proof.
  revert x. induction l as [|y l IH]; intros x; [reflexivity|].
  change (List.last (y :: l) d = List.last (y :: l) d'). apply IH.
Qed.

(** ** Sequences of operations *)

Section Sequences.

Context {A : Type} `{HA : hostAllocator A}.
Variable sizeofT : Z.

(** One [resize], whatever its outcome. *)
Lemma resize_post new_size stream (m m' : machine A) r :
  resize sizeofT new_size stream m = (r, m') ->
  _capacity (this m) <= _capacity (this m')
  /\ (r = Ok tt ->
      _size (this m') = new_size
      /\ _capacity (this m') = Z.max (_capacity (this m)) new_size)
  /\ (never_fails A -> r = Ok tt).
Proof.
  destruct (Z.ltb_spec (_capacity (this m)) new_size) as [Hlt|Hge].
  - destruct (allocate (allocator m) (size_mul new_size sizeofT) stream)
      as [[p|] a'] eqn:Hal.
    + rewrite (resize_grow_eq sizeofT new_size stream m p a');
        [|apply Z.ltb_lt; exact Hlt|exact Hal].
      intros Heq. injection Heq as <- <-. simpl.
      repeat split; try reflexivity; lia.
    + rewrite (resize_throw_eq sizeofT new_size stream m a');
        [|apply Z.ltb_lt; exact Hlt|exact Hal].
      intros Heq. injection Heq as <- <-. simpl.
      repeat split; try discriminate; try lia.
      intros Hnf. specialize (Hnf (allocator m) (size_mul new_size sizeofT) stream).
      rewrite Hal in Hnf. contradiction.
  - rewrite resize_keep_eq; [|apply Z.ltb_ge; exact Hge].
    intros Heq. injection Heq as <- <-. simpl.
    repeat split; try reflexivity; lia.
Qed.

(** [resize] keeps the invariants, also when it throws. *)
Lemma resize_invariant new_size stream (m : machine A) :
  returns_nonnull A ->
  0 <= new_size ->
  invariant (this m) ->
  invariant (this (snd (resize sizeofT new_size stream m))).
Proof.
  intros Hnn Hsz [Hsize Hdata].
  destruct (Z.ltb_spec (_capacity (this m)) new_size) as [Hlt|Hge].
  - destruct (allocate (allocator m) (size_mul new_size sizeofT) stream)
      as [[p|] a'] eqn:Hal.
    + rewrite (resize_grow_eq sizeofT new_size stream m p a');
        [|apply Z.ltb_lt; exact Hlt|exact Hal].
      simpl. split; simpl; [lia|].
      split; [lia|]. intros _. exact (Hnn _ _ _ _ _ Hal).
    + rewrite (resize_throw_eq sizeofT new_size stream m a');
        [|apply Z.ltb_lt; exact Hlt|exact Hal].
      simpl. split; assumption.
  - rewrite resize_keep_eq; [|apply Z.ltb_ge; exact Hge].
    simpl. split; simpl; [lia|exact Hdata].
Qed.

(** [resize] keeps the books: the one block in hand afterwards is the one
    the buffer holds. *)
Lemma resize_outstanding new_size stream (m : machine A) :
  outstanding (calls m) = Some (held sizeofT (this m)) ->
  outstanding (calls (snd (resize sizeofT new_size stream m))) =
    Some (held sizeofT (this (snd (resize sizeofT new_size stream m)))).
Proof.
  intros Hbooks. unfold outstanding in *.
  destruct (Z.ltb_spec (_capacity (this m)) new_size) as [Hlt|Hge].
  - destruct (allocate (allocator m) (size_mul new_size sizeofT) stream)
      as [[p|] a'] eqn:Hal.
    + rewrite (resize_grow_eq sizeofT new_size stream m p a');
        [|apply Z.ltb_lt; exact Hlt|exact Hal].
      simpl. rewrite outstanding_from_app, Hbooks.
      unfold held. cbn [_data _capacity].
      destruct p as [|p|p];
        destruct (_data (this m) =? nullptr);
        destruct (0 <? _size (this m)); cbn -[take_out];
        rewrite ?take_out_second, ?take_out_head; reflexivity.
    + rewrite (resize_throw_eq sizeofT new_size stream m a');
        [|apply Z.ltb_lt; exact Hlt|exact Hal].
      simpl. rewrite outstanding_from_app, Hbooks. reflexivity.
  - rewrite resize_keep_eq; [|apply Z.ltb_ge; exact Hge].
    simpl. exact Hbooks.
Qed.

Lemma release_outstanding stream (m : machine A) :
  outstanding (calls m) = Some (held sizeofT (this m)) ->
  outstanding (calls (snd (release sizeofT stream m))) = Some [].
Proof.
  intros Hbooks. unfold outstanding in *. rewrite release_eq. simpl.
  rewrite outstanding_from_app, Hbooks. unfold held.
  destruct (_data (this m) =? nullptr); cbn -[take_out];
    rewrite ?take_out_head; reflexivity.
Qed.

Lemma destroy_outstanding (m : machine A) :
  outstanding (calls m) = Some (held sizeofT (this m)) ->
  outstanding (calls (snd (destroy sizeofT m))) = Some [].
Proof.
  intros Hbooks. unfold outstanding in *. rewrite destroy_eq. simpl.
  rewrite outstanding_from_app, Hbooks. unfold held.
  destruct (_data (this m) =? nullptr); cbn -[take_out];
    rewrite ?take_out_head; reflexivity.
Qed.

Lemma step_outstanding o (m : machine A) :
  outstanding (calls m) = Some (held sizeofT (this m)) ->
  outstanding (calls (step sizeofT m o)) =
    Some (held sizeofT (this (step sizeofT m o))).
Proof.
  intros Hbooks.
  destruct o; try exact Hbooks.
  - apply resize_outstanding; assumption.
  - unfold step. simpl perform.
    rewrite (release_outstanding stream m Hbooks).
    rewrite release_eq. reflexivity.
Qed.

Lemma run_outstanding ops (m : machine A) :
  outstanding (calls m) = Some (held sizeofT (this m)) ->
  outstanding (calls (run sizeofT ops m)) =
    Some (held sizeofT (this (run sizeofT ops m))).
Proof.
  revert m. induction ops as [|o ops IH]; intros m Hbooks.
  - exact Hbooks.
  - simpl. apply IH. apply step_outstanding; assumption.
Qed.

Lemma construct_outstanding n a (m : machine A) :
  construct sizeofT n (raw a) = (Ok tt, m) ->
  outstanding (calls m) = Some (held sizeofT (this m)).
Proof.
  rewrite construct_eq. simpl.
  destruct (0 <? n).
  - destruct (allocate a (size_mul n sizeofT) default_stream)
      as [[p|] a'] eqn:Hal; intros Heq; [|discriminate].
    injection Heq as <-. unfold outstanding, held.
    destruct p as [|p|p]; reflexivity.
  - intros Heq. injection Heq as <-. reflexivity.
Qed.

End Sequences.

(** ** Lifetimes *)

Section Lifetimes.

Context {A : Type} `{HA : hostAllocator A}.
Variable sizeofT : Z.

(** C2: run [resize] with targets [s1, ..., sk], one call after the other,
    from any buffer.  The capacity at the end is never below the capacity
    at the start, whatever the outcome.  When every call returned,
    [size()] is [sk] (the size is untouched when there is no call at all)
    and the capacity is at least the largest of the starting capacity and
    [s1 .. sk].  With an allocator that never fails every call returns.
    Each single call that returns leaves [size() = new_size] and
    [_capacity >= new_size], with a capacity that is not below the one
    before the call. *)
Theorem resize_all_size_and_capacity targets (m m' : machine A) r :
  resize_all sizeofT targets m = (r, m') ->
  _capacity (this m) <= _capacity (this m')
  /\ (r = Ok tt ->
      _size (this m') = List.last (map fst targets) (_size (this m))
      /\ foldr Z.max (_capacity (this m)) (map fst targets)
           <= _capacity (this m'))
  /\ (never_fails A -> r = Ok tt)
  /\ (forall new_size stream (m1 m2 : machine A),
        resize sizeofT new_size stream m1 = (Ok tt, m2) ->
        _size (this m2) = new_size
        /\ new_size <= _capacity (this m2)
        /\ _capacity (this m1) <= _capacity (this m2)).
Proof.
  intros Hrun.
  assert (Hsingle : forall new_size stream (m1 m2 : machine A),
            resize sizeofT new_size stream m1 = (Ok tt, m2) ->
            _size (this m2) = new_size
            /\ new_size <= _capacity (this m2)
            /\ _capacity (this m1) <= _capacity (this m2)).
  { intros new_size stream m1 m2 Hcall.
    destruct (resize_post sizeofT _ _ _ _ _ Hcall) as (Hmono & Hok & _).
    destruct (Hok eq_refl) as [Hsz Hcap]. repeat split; lia. }
  cut (_capacity (this m) <= _capacity (this m')
       /\ (r = Ok tt ->
           _size (this m') = List.last (map fst targets) (_size (this m))
           /\ foldr Z.max (_capacity (this m)) (map fst targets)
                <= _capacity (this m'))
       /\ (never_fails A -> r = Ok tt)).
  { intros (H1 & H2 & H3). split; [exact H1|]. split; [exact H2|].
    split; [exact H3|exact Hsingle]. }
  clear Hsingle. revert m Hrun.
  induction targets as [|[new_size stream] rest IH]; intros m Hrun.
  - injection Hrun as <- <-. simpl. repeat split; try reflexivity; lia.
  - simpl in Hrun. unfold bind in Hrun.
    destruct (resize sizeofT new_size stream m) as [r1 m1] eqn:Hfirst.
    destruct (resize_post sizeofT _ _ _ _ _ Hfirst) as (Hmono & Hok & Hnf).
    destruct r1 as [[]|e].
    + destruct (IH _ Hrun) as (Hmono' & Hok' & Hnf').
      destruct (Hok eq_refl) as [Hsz Hcap].
      split; [lia|]. split; [|exact Hnf'].
      intros Hr. destruct (Hok' Hr) as [Hlast Hmax]. split.
      * rewrite Hlast, Hsz. simpl map.
        destruct rest as [|t rest']; [reflexivity|].
        exact (last_cons_default (fst t) (map fst rest') _ _).
      * simpl. rewrite Hcap in Hmax.
        pose proof (foldr_max_mono (_capacity (this m))
                      (Z.max (_capacity (this m)) new_size)
                      (map fst rest) ltac:(lia)) as Hm.
        pose proof (foldr_max_base (Z.max (_capacity (this m)) new_size)
                      (map fst rest)) as Hb.
        lia.
    + injection Hrun as <- <-.
      split; [exact Hmono|]. split; [discriminate|].
      intros Hall. specialize (Hnf Hall). discriminate.
Qed.

(** C3: with an allocator that never answers null on success and
    [size_type] arguments, the constructor, when it returns, leaves a
    buffer with [0 <= _size <= _capacity] and [_data] non-null exactly when
    [_capacity > 0]; and every operation on a buffer that satisfies these
    invariants ([resize], also when it throws, [clear], [release] and the
    queries) leaves a buffer that satisfies them. *)
Theorem operations_keep_invariant n o (m0 m : machine A) :
  returns_nonnull A ->
  is_size_t n ->
  well_typed o ->
  invariant (this m) ->
  match construct sizeofT n m0 with
  | (Ok _, m1) => invariant (this m1)
  | (Throw _, _) => True
  end
  /\ invariant (this (step sizeofT m o)).
Proof.
  intros Hnn Hn Ho Hinv. split.
  - rewrite construct_eq.
    destruct (Z.ltb_spec 0 n) as [Hpos|Hzero].
    + destruct (allocate (allocator m0) (size_mul n sizeofT) default_stream)
        as [[p|] a'] eqn:Hal; [|exact I].
      split; simpl; [lia|]. split; [lia|].
      intros _. exact (Hnn _ _ _ _ _ Hal).
    + destruct Hn as [Hn _].
      split; simpl; [lia|]. split; [intros Hne; contradiction|lia].
  - destruct o; try exact Hinv.
    + apply resize_invariant; [exact Hnn|apply Ho|exact Hinv].
    + destruct Hinv as [Hsize Hdata]. split; simpl; [lia|exact Hdata].
    + unfold step. simpl perform. rewrite release_eq. simpl.
      split; simpl; [lia|]. split; [intros Hne; contradiction|lia].
Qed.

(** C4: take any lifetime of a buffer: construction with any size, any
    operations in any order (a [resize] that throws included), then
    destruction, over any allocator.  The recorded calls settle: every
    [deallocate] names a block that is in hand at that moment, with the
    byte size it was allocated with, and at the end no block is left in
    hand.  At every point of the trace the [deallocate] calls made so far
    are no more than the blocks handed out so far.  The destructor makes
    exactly one call, the [deallocate] of the held block, when [_data] is
    not null, and none otherwise; right after a [release] it makes none. *)
Theorem lifetime_returns_every_block n ops a k stream (m : machine A) :
  outstanding (calls (lifetime sizeofT n ops a)) = Some []
  /\ (deallocations (take k (calls (lifetime sizeofT n ops a)))
      <= allocations (take k (calls (lifetime sizeofT n ops a))))%nat
  /\ calls (snd (destroy sizeofT m)) =
       calls m
       ++ (if _data (this m) =? nullptr then []
           else [Deallocate (_data (this m))
                   (size_mul (_capacity (this m)) sizeofT) default_stream])
  /\ calls (snd (destroy sizeofT (snd (release sizeofT stream m)))) =
       calls (snd (release sizeofT stream m)).
Proof.
  assert (Hall : outstanding (calls (lifetime sizeofT n ops a)) = Some []).
  { unfold lifetime.
    destruct (construct sizeofT n (raw a)) as [[[]|e] m1] eqn:Hc.
    - apply destroy_outstanding, run_outstanding.
      exact (construct_outstanding sizeofT n a m1 Hc).
    - rewrite construct_eq in Hc. simpl in Hc.
      destruct (0 <? n); [|discriminate].
      destruct (allocate a (size_mul n sizeofT) default_stream)
        as [[p|] a']; [discriminate|].
      injection Hc as _ <-. reflexivity. }
  split; [exact Hall|].
  split; [exact (outstanding_prefix _ k _ Hall)|].
  split.
  - rewrite destroy_eq. reflexivity.
  - rewrite destroy_eq, release_eq. simpl. rewrite app_nil_r. reflexivity.
Qed.

End Lifetimes.

(** ** Memory lemmas *)

Section MemoryFacts.

Context {T : Type}.
Variable sizeofT : Z.
Hypothesis sizeofT_pos : 0 < sizeofT.

Lemma fresh_block_length k :
  0 <= k ->
  Z.of_nat (length (cells (fresh_block sizeofT (k * sizeofT) : block T))) = k.
Proof.
  intros Hk. unfold fresh_block. simpl.
  rewrite length_replicate, Z.div_mul by lia. lia.
Qed.

(** A copy of [k] whole elements. *)
Lemma copy_cells_whole k (src dst : list (option T)) :
  0 <= k ->
  copy_cells T sizeofT (k * sizeofT) src dst =
    take (Z.to_nat k) src ++ drop (Z.to_nat k) dst.
Proof.
  intros Hk. unfold copy_cells.
  rewrite Z.mod_mul, Z.div_mul by lia. reflexivity.
Qed.

Lemma exec_allocate_fresh (h : gmap Z (block T)) n stream p :
  p <> nullptr ->
  h !! p = None ->
  exec_call sizeofT h (Allocate n stream (Some p)) =
    Some (<[p := fresh_block sizeofT n]> h).
Proof.
  intros Hp Hfresh. unfold exec_call.
  destruct (decide (p <> nullptr /\ h !! p = None)) as [_|Hno];
    [reflexivity|].
  exfalso. apply Hno. split; assumption.
Qed.

Lemma exec_deallocate_live (h : gmap Z (block T)) p n stream blk :
  h !! p = Some blk ->
  block_bytes blk = n ->
  exec_call sizeofT h (Deallocate p n stream) = Some (delete p h).
Proof.
  intros Hlive Hbytes. unfold exec_call. rewrite Hlive.
  destruct (decide (block_bytes blk = n)) as [_|Hno];
    [reflexivity|contradiction].
Qed.

Lemma exec_memcpy_fits (h : gmap Z (block T)) dst src count stream bd bs :
  h !! dst = Some bd ->
  h !! src = Some bs ->
  0 <= count <= block_bytes bd ->
  count <= block_bytes bs ->
  exec_call sizeofT h (MemcpyAsync dst src count stream) =
    Some (<[dst := mk_block (block_bytes bd)
                     (copy_cells T sizeofT count (cells bs) (cells bd))]> h).
Proof.
  intros Hdst Hsrc Hd Hs. unfold exec_call. rewrite Hdst, Hsrc.
  destruct (decide (0 <= count <= block_bytes bd /\ count <= block_bytes bs))
    as [_|Hno]; [reflexivity|].
  exfalso. apply Hno. split; assumption.
Qed.

Lemma element_live (h : gmap Z (block T)) b pos blk :
  h !! _data b = Some blk ->
  0 <= pos ->
  element h b pos =
    match cells blk !! Z.to_nat pos with
    | Some c => c
    | None => None
    end.
Proof.
  intros Hlive Hpos. unfold element. rewrite Hlive.
  destruct (decide (0 <= pos)) as [_|Hno]; [reflexivity|contradiction].
Qed.

(** A buffer with a non-null [_data] that owns its block. *)
Lemma owns_live (h : gmap Z (block T)) b :
  owns sizeofT h b ->
  _data b <> nullptr ->
  exists blk,
    h !! _data b = Some blk
    /\ block_bytes blk = _capacity b * sizeofT
    /\ Z.of_nat (length (cells blk)) = _capacity b.
Proof.
  unfold owns. intros Hown Hd.
  destruct (h !! _data b) as [blk|]; [|contradiction].
  exists blk. split; [reflexivity|exact Hown].
Qed.

(** What the calls of a growing [resize] do to memory. *)
Lemma grow_memory (h : gmap Z (block T)) b new_size stream p :
  invariant b ->
  _capacity b < new_size ->
  owns sizeofT h b ->
  p <> nullptr ->
  h !! p = None ->
  exists h',
    exec_calls sizeofT h
      ([Allocate (new_size * sizeofT) stream (Some p)]
       ++ (if 0 <? _size b
           then [MemcpyAsync p (_data b) (_size b * sizeofT) stream]
           else [])
       ++ (if _data b =? nullptr then []
           else [Deallocate (_data b) (_capacity b * sizeofT) stream]))
      = Some h'
    /\ owns sizeofT h' (mk_host_buffer new_size new_size p)
    /\ (_data b <> nullptr -> h' !! _data b = None)
    /\ (forall pos, 0 <= pos < _size b ->
          element h' (mk_host_buffer new_size new_size p) pos =
            element h b pos).
Proof.
  intros [Hsize Hdata] Hlt Hown Hp Hfresh.
  cbn [app exec_calls]. rewrite (exec_allocate_fresh h _ _ p Hp Hfresh).
  destruct (Z.eqb_spec (_data b) nullptr) as [Hnull|Hheld].
  - (* nothing held: capacity and size are zero *)
    assert (Hcap : ~ 0 < _capacity b) by (intros Hc; apply Hdata in Hc; contradiction).
    destruct (Z.ltb_spec 0 (_size b)) as [Hpos|_]; [lia|].
    cbn [app exec_calls]. eexists. split; [reflexivity|].
    split; [|split].
    + unfold owns. cbn [_data _capacity]. rewrite lookup_insert_eq.
      split; [reflexivity|]. apply fresh_block_length. lia.
    + intros Hne. contradiction.
    + intros pos Hpos. lia.
  - destruct (owns_live h b Hown Hheld) as (blk & Hlive & Hbytes & Hlen).
    assert (Hpd : p <> _data b) by (intros ->; congruence).
    destruct (Z.ltb_spec 0 (_size b)) as [Hpos|Hzero].
    + (* copy, then free *)
      cbn [app exec_calls].
      rewrite (exec_memcpy_fits _ p (_data b) _ _
                 (fresh_block sizeofT (new_size * sizeofT)) blk).
      2: { apply lookup_insert_eq. }
      2: { rewrite lookup_insert_ne by exact Hpd. exact Hlive. }
      2: { cbn [block_bytes fresh_block]. nia. }
      2: { rewrite Hbytes. nia. }
      rewrite (exec_deallocate_live _ (_data b) _ _ blk).
      2: { rewrite !lookup_insert_ne by exact Hpd. exact Hlive. }
      2: { exact Hbytes. }
      eexists. split; [reflexivity|]. split; [|split].
      * unfold owns. cbn [_data _capacity].
        rewrite lookup_delete_ne by (intros Heq; apply Hpd; symmetry; exact Heq).
        rewrite lookup_insert_eq. cbn [block_bytes cells fresh_block].
        split; [reflexivity|].
        rewrite copy_cells_whole by lia.
        rewrite length_app, length_take, length_drop, length_replicate.
        rewrite Z.div_mul by lia. lia.
      * intros _. apply lookup_delete_eq.
      * intros pos Hrange.
        rewrite (element_live _ (mk_host_buffer new_size new_size p) pos
                   (mk_block (new_size * sizeofT)
                      (copy_cells T sizeofT (_size b * sizeofT) (cells blk)
                         (cells (fresh_block sizeofT (new_size * sizeofT)))))).
        2: { cbn [_data].
             rewrite lookup_delete_ne by (intros Heq; apply Hpd; symmetry; exact Heq).
             apply lookup_insert_eq. }
        2: { lia. }
        rewrite (element_live h b pos blk Hlive) by lia.
        cbn [cells]. rewrite copy_cells_whole by lia.
        rewrite lookup_app_l by (rewrite length_take; lia).
        rewrite lookup_take_lt by lia. reflexivity.
    + (* nothing to copy, free *)
      cbn [app exec_calls].
      rewrite (exec_deallocate_live _ (_data b) _ _ blk).
      2: { rewrite lookup_insert_ne by exact Hpd. exact Hlive. }
      2: { exact Hbytes. }
      eexists. split; [reflexivity|]. split; [|split].
      * unfold owns. cbn [_data _capacity].
        rewrite lookup_delete_ne by (intros Heq; apply Hpd; symmetry; exact Heq).
        rewrite lookup_insert_eq.
        split; [reflexivity|]. apply fresh_block_length. lia.
      * intros _. apply lookup_delete_eq.
      * intros pos Hrange. lia.
Qed.

End MemoryFacts.

(** ** Growing *)

Section Growing.

Context {A : Type} `{HA : hostAllocator A}.
Context {T : Type}.
Variable sizeofT : Z.

(** C1 (as amended): take a buffer that satisfies the data-model
    invariants and owns its block, a [new_size] above its capacity whose
    byte size [new_size * sizeof(T)] fits in [size_t], and an allocator
    that answers the request with a block [p] that is not null and not
    live.  Then [resize(new_size, stream)] returns normally; its calls are,
    in this order: [allocate] of exactly [new_size * sizeof(T)] bytes on
    [stream]; when the old [_size] is above [0], a copy of the first
    [_size] elements ([_size * sizeof(T)] bytes) from the old block to the
    new one on [stream]; when the old [_data] is not null, [deallocate] of
    the old block with its [_capacity * sizeof(T)] bytes on [stream].
    Afterwards [_data] is [p] and [_size = _capacity = new_size].  In
    memory the calls go through, the buffer owns the new block, the old
    block is gone, and every element below the old [_size] reads as it did
    before. *)
Theorem resize_grow_exact new_size stream (m : machine A) p a'
    (h : gmap Z (block T)) :
  0 < sizeofT ->
  is_size_t (new_size * sizeofT) ->
  invariant (this m) ->
  owns sizeofT h (this m) ->
  _capacity (this m) < new_size ->
  allocate (allocator m) (new_size * sizeofT) stream = (Some p, a') ->
  p <> nullptr ->
  h !! p = None ->
  resize sizeofT new_size stream m =
    (Ok tt,
     mk_machine
       (mk_host_buffer new_size new_size p)
       (if _data (this m) =? nullptr then a'
        else deallocate a' (_data (this m))
               (_capacity (this m) * sizeofT) stream)
       (calls m
        ++ [Allocate (new_size * sizeofT) stream (Some p)]
        ++ (if 0 <? _size (this m)
            then [MemcpyAsync p (_data (this m))
                    (_size (this m) * sizeofT) stream]
            else [])
        ++ (if _data (this m) =? nullptr then []
            else [Deallocate (_data (this m))
                    (_capacity (this m) * sizeofT) stream])))
  /\ exists h',
       exec_calls sizeofT h
         ([Allocate (new_size * sizeofT) stream (Some p)]
          ++ (if 0 <? _size (this m)
              then [MemcpyAsync p (_data (this m))
                      (_size (this m) * sizeofT) stream]
              else [])
          ++ (if _data (this m) =? nullptr then []
              else [Deallocate (_data (this m))
                      (_capacity (this m) * sizeofT) stream]))
         = Some h'
       /\ owns sizeofT h' (mk_host_buffer new_size new_size p)
       /\ (_data (this m) <> nullptr -> h' !! _data (this m) = None)
       /\ (forall pos, 0 <= pos < _size (this m) ->
             element h' (mk_host_buffer new_size new_size p) pos =
               element h (this m) pos).
Proof.
  intros Hpos Hbytes Hinv Hown Hlt Hal Hp Hfresh.
  pose proof Hinv as [Hsize _].
  assert (Hnew : size_mul new_size sizeofT = new_size * sizeofT)
    by (apply size_mul_exact; exact Hbytes).
  assert (Hcap : size_mul (_capacity (this m)) sizeofT
                 = _capacity (this m) * sizeofT).
  { apply size_mul_exact. unfold is_size_t in *. nia. }
  assert (Hsz : size_mul (_size (this m)) sizeofT = _size (this m) * sizeofT).
  { apply size_mul_exact. unfold is_size_t in *. nia. }
  split.
  - rewrite <- Hnew in Hal.
    rewrite (resize_grow_eq sizeofT new_size stream m p a');
      [|apply Z.ltb_lt; exact Hlt|exact Hal].
    rewrite Hnew, Hcap, Hsz. reflexivity.
  - apply grow_memory; assumption.
Qed.

End Growing.

(** ** The test doubles keep the allocator's side of the contract *)

Lemma pool_returns_nonnull : returns_nonnull pool.
Proof.
  intros a n stream p a' Hal. simpl in Hal.
  destruct (decide (in_use a + n <= budget a)); [|discriminate].
  injection Hal as <- _. discriminate.
Qed.

Lemma endless_returns_nonnull : returns_nonnull endless.
Proof.
  intros a n stream p a' Hal. simpl in Hal.
  injection Hal as <- _. discriminate.
Qed.

Lemma endless_never_fails : never_fails endless.
Proof.
  intros a n stream. simpl. discriminate.
Qed.

(** ** Scenarios *)

(** The spec's copy-on-grow scenario: ten [int32] elements holding [0 .. 9],
    shrunk to three (no call), then grown to twenty.  The first three
    elements read as before and the capacity is twenty. *)
Example copy_on_grow_scenario :
  let m0 := snd (construct sizeof_int32 10 (raw small_pool)) in
  let m1 := snd (resize sizeof_int32 3 7 m0) in
  let m2 := snd (resize sizeof_int32 20 7 m1) in
  exists h0 h1 h2 : gmap Z (block Z),
    exec_calls sizeof_int32 ∅ (calls m0) = Some h0
    /\ fill h0 (this m0) 0 [0; 1; 2; 3; 4; 5; 6; 7; 8; 9] = Some h1
    /\ calls m1 = calls m0
    /\ exec_calls sizeof_int32 h1 (drop (length (calls m1)) (calls m2)) = Some h2
    /\ element h2 (this m2) 0 = Some 0
    /\ element h2 (this m2) 1 = Some 1
    /\ element h2 (this m2) 2 = Some 2
    /\ _size (this m2) = 20
    /\ _capacity (this m2) = 20.
Proof.
  cbv zeta.
  destruct (exec_calls sizeof_int32 (∅ : gmap Z (block Z))
              (calls (snd (construct sizeof_int32 10 (raw small_pool)))))
    as [h0|] eqn:H0; [|vm_compute in H0; discriminate].
  exists h0.
  destruct (fill h0 (this (snd (construct sizeof_int32 10 (raw small_pool))))
              0 [0; 1; 2; 3; 4; 5; 6; 7; 8; 9]) as [h1|] eqn:H1.
  2: { vm_compute in H0. injection H0 as <-. vm_compute in H1. discriminate. }
  exists h1.
  destruct (exec_calls sizeof_int32 h1
              (drop (length (calls (snd (resize sizeof_int32 3 7
                        (snd (construct sizeof_int32 10 (raw small_pool)))))))
                 (calls (snd (resize sizeof_int32 20 7
                   (snd (resize sizeof_int32 3 7
                     (snd (construct sizeof_int32 10 (raw small_pool))))))))))
    as [h2|] eqn:H2.
  2: { vm_compute in H0. injection H0 as <-.
       vm_compute in H1. injection H1 as <-.
       vm_compute in H2. discriminate. }
  exists h2.
  vm_compute in H0. injection H0 as <-.
  vm_compute in H1. injection H1 as <-.
  vm_compute in H2. injection H2 as <-.
  repeat split; vm_compute; reflexivity.
Qed.

(** The spec's budget scenario: a pool of 1000 bytes, a buffer of 100
    [int32] elements (400 bytes), then a [resize] to 300 elements (1200
    bytes).  The [resize] throws, the buffer is as it was, and the lifetime
    still settles. *)
Example budget_scenario :
  let m0 := snd (construct sizeof_int32 100 (raw small_pool)) in
  fst (construct sizeof_int32 100 (raw small_pool)) = Ok tt
  /\ fst (resize sizeof_int32 300 7 m0) = Throw allocation_error
  /\ this (snd (resize sizeof_int32 300 7 m0)) = this m0
  /\ calls (lifetime sizeof_int32 100 [op_resize 300 7] small_pool) =
       [Allocate 400 0 (Some 1); StreamSynchronize 0;
        Allocate 1200 7 None; Deallocate 1 400 0].
Proof.
  repeat split; vm_compute; reflexivity.
Qed.

(** ** A grow whose byte size wraps *)

(** C1 as stated fails when [new_size * sizeof(T)] does not fit in
    [size_t].  A buffer of one [int32] element holding [42] is resized to
    [2^62] elements: the product [2^62 * 4 = 2^64] wraps to [0], so the
    allocator is asked for [0] bytes, not for [new_size * sizeof(T)]; the
    copy of the 4 old bytes then runs past the end of the new block, and
    memory does not allow the calls: the new block has no room for the
    element. *)
Lemma resize_grow_wraps :
  let m := snd (construct sizeof_int32 1 (raw small_pool)) in
  let h : gmap Z (block Z) := <[1 := mk_block 4 [Some 42]]> ∅ in
  let new_size := 2 ^ 62 in
  let grown := [Allocate 0 7 (Some 2); MemcpyAsync 2 1 4 7; Deallocate 1 4 7] in
  this m = mk_host_buffer 1 1 1
  /\ invariant (this m)
  /\ owns sizeof_int32 h (this m)
  /\ element h (this m) 0 = Some 42
  /\ is_size_t new_size
  /\ _capacity (this m) < new_size
  /\ resize sizeof_int32 new_size 7 m =
       (Ok tt,
        mk_machine (mk_host_buffer new_size new_size 2)
          (mk_pool 3 0 1000) (calls m ++ grown))
  /\ new_size * sizeof_int32 <> 0
  /\ exec_calls sizeof_int32 h grown = None
  /\ (exists h1,
        exec_calls sizeof_int32 h [Allocate 0 7 (Some 2)] = Some h1
        /\ element h1 (mk_host_buffer new_size new_size 2) 0 = None).
Proof.
  cbv zeta. split; [reflexivity|].
  split; [split; simpl; [lia|split; [intros _; lia|intros _; discriminate]]|].
  split; [vm_compute; split; reflexivity|].
  split; [reflexivity|].
  split; [vm_compute; split; discriminate|].
  split; [reflexivity|].
  split; [reflexivity|].
  split; [discriminate|].
  split; [reflexivity|].
  eexists. split; reflexivity.
Qed.

(** ** The theorems at concrete buffers *)

Lemma resize_within_capacity_witness :
  resize sizeof_int32 3 7 (mk_machine (mk_host_buffer 10 10 1) small_pool []) =
    (Ok tt, mk_machine (mk_host_buffer 3 10 1) small_pool []).
Proof.
  apply (resize_within_capacity sizeof_int32 3 7
           (mk_machine (mk_host_buffer 10 10 1) small_pool [])).
  simpl. lia.
Defined.

Lemma clear_only_resets_size_witness :
  clear (mk_machine (mk_host_buffer 10 10 1) small_pool []) =
    (Ok tt, mk_machine (mk_host_buffer 0 10 1) small_pool [])
  /\ resize sizeof_int32 7 5
       (snd (clear (mk_machine (mk_host_buffer 10 10 1) small_pool []))) =
    (Ok tt, mk_machine (mk_host_buffer 7 10 1) small_pool []).
Proof.
  apply (clear_only_resets_size sizeof_int32 7 5
           (mk_machine (mk_host_buffer 10 10 1) small_pool [])).
  simpl. lia.
Defined.

Lemma resize_failed_allocation_witness :
  resize sizeof_int32 300 7
    (mk_machine (mk_host_buffer 100 100 1) (mk_pool 2 400 1000) []) =
    (Throw allocation_error,
     mk_machine (mk_host_buffer 100 100 1) (mk_pool 2 400 1000)
       [Allocate 1200 7 None]).
Proof.
  apply (resize_failed_allocation sizeof_int32 300 7
           (mk_machine (mk_host_buffer 100 100 1) (mk_pool 2 400 1000) [])
           (mk_pool 2 400 1000)).
  - simpl. lia.
  - reflexivity.
Defined.

Lemma release_frees_held_block_witness :
  calls (snd (release sizeof_int32 9
                (mk_machine (mk_host_buffer 3 10 1) (mk_pool 2 40 1000) []))) =
    [Deallocate 1 40 9]
  /\ fst (release sizeof_int32 9
            (mk_machine (mk_host_buffer 3 10 1) (mk_pool 2 40 1000) [])) = Ok tt
  /\ fst (size (snd (release sizeof_int32 9
            (mk_machine (mk_host_buffer 3 10 1) (mk_pool 2 40 1000) [])))) = Ok 0
  /\ _capacity (this (snd (release sizeof_int32 9
            (mk_machine (mk_host_buffer 3 10 1) (mk_pool 2 40 1000) [])))) = 0
  /\ fst (data (snd (release sizeof_int32 9
            (mk_machine (mk_host_buffer 3 10 1) (mk_pool 2 40 1000) [])))) =
       Ok nullptr.
Proof.
  apply (release_frees_held_block sizeof_int32 9
           (mk_machine (mk_host_buffer 3 10 1) (mk_pool 2 40 1000) [])).
  split; simpl; [lia|]. split; [intros _; lia|intros _; discriminate].
Defined.

Lemma construct_exact_witness :
  construct sizeof_int32 100 (raw small_pool) =
    (Ok tt,
     mk_machine (mk_host_buffer 100 100 1) (mk_pool 2 400 1000)
       [Allocate 400 0 (Some 1); StreamSynchronize 0]).
Proof.
  apply (construct_exact sizeof_int32 100 (raw small_pool)
           pool_returns_nonnull).
  - unfold is_size_t, SIZE_MAX. lia.
  - unfold is_size_t, SIZE_MAX, sizeof_int32. lia.
Defined.

Lemma resize_all_size_and_capacity_witness :
  _capacity (this (raw (mk_endless 1)))
    <= _capacity (this (snd (resize_all sizeof_int32 [(10, 7); (3, 7); (20, 8)]
                               (raw (mk_endless 1)))))
  /\ (Ok tt = Ok tt ->
      _size (this (snd (resize_all sizeof_int32 [(10, 7); (3, 7); (20, 8)]
                          (raw (mk_endless 1))))) =
        List.last (map fst [(10, 7); (3, 7); (20, 8)])
          (_size (this (raw (mk_endless 1))))
      /\ foldr Z.max (_capacity (this (raw (mk_endless 1))))
           (map fst [(10, 7); (3, 7); (20, 8)])
         <= _capacity (this (snd (resize_all sizeof_int32
                                    [(10, 7); (3, 7); (20, 8)]
                                    (raw (mk_endless 1))))))
  /\ (never_fails endless -> Ok tt = Ok tt).
Proof.
  pose proof (resize_all_size_and_capacity sizeof_int32
                [(10, 7); (3, 7); (20, 8)] (raw (mk_endless 1))
                (snd (resize_all sizeof_int32 [(10, 7); (3, 7); (20, 8)]
                        (raw (mk_endless 1))))
                (Ok tt) eq_refl) as (H1 & H2 & H3 & _).
  split; [exact H1|]. split; [exact H2|exact H3].
Defined.

Lemma operations_keep_invariant_witness :
  match construct sizeof_int32 10 (raw small_pool) with
  | (Ok _, m1) => invariant (this m1)
  | (Throw _, _) => True
  end
  /\ invariant
       (this (step sizeof_int32
                (mk_machine (mk_host_buffer 3 10 1) (mk_pool 2 40 1000) [])
                (op_resize 20 7))).
Proof.
  apply (operations_keep_invariant sizeof_int32 10 (op_resize 20 7)
           (raw small_pool)
           (mk_machine (mk_host_buffer 3 10 1) (mk_pool 2 40 1000) [])
           pool_returns_nonnull).
  - unfold is_size_t, SIZE_MAX. lia.
  - simpl. unfold is_size_t, SIZE_MAX. lia.
  - split; simpl; [lia|]. split; [intros _; lia|intros _; discriminate].
Defined.

Example lifetime_settles_scenario :
  outstanding
    (calls (lifetime sizeof_int32 10
              [op_resize 3 7; op_resize 20 7; op_clear; op_release 9;
               op_resize 999 1] small_pool)) = Some [].
Proof.
  vm_compute. reflexivity.
Qed.

Lemma resize_grow_exact_witness :
  let m := mk_machine (mk_host_buffer 3 10 1) (mk_pool 2 40 1000) [] in
  let h : gmap Z (block Z) :=
    <[1 := mk_block 40 (map Some [0; 1; 2; 3; 4; 5; 6; 7; 8; 9])]> ∅ in
  resize sizeof_int32 20 7 m =
    (Ok tt,
     mk_machine (mk_host_buffer 20 20 2) (mk_pool 3 80 1000)
       [Allocate 80 7 (Some 2); MemcpyAsync 2 1 12 7; Deallocate 1 40 7])
  /\ exists h',
       exec_calls sizeof_int32 h
         [Allocate 80 7 (Some 2); MemcpyAsync 2 1 12 7; Deallocate 1 40 7]
         = Some h'
       /\ owns sizeof_int32 h' (mk_host_buffer 20 20 2)
       /\ (1 <> nullptr -> h' !! 1 = None)
       /\ (forall pos, 0 <= pos < 3 ->
             element h' (mk_host_buffer 20 20 2) pos =
               element h (mk_host_buffer 3 10 1) pos).
Proof.
  cbv zeta.
  refine (resize_grow_exact sizeof_int32 20 7
            (mk_machine (mk_host_buffer 3 10 1) (mk_pool 2 40 1000) [])
            2 (mk_pool 3 120 1000)
            (<[1 := mk_block 40 (map Some [0; 1; 2; 3; 4; 5; 6; 7; 8; 9])]> ∅)
            _ _ _ _ _ _ _ _).
  - unfold sizeof_int32. lia.
  - unfold is_size_t, SIZE_MAX, sizeof_int32. lia.
  - split; simpl; [lia|]. split; [intros _; lia|intros _; discriminate].
  - vm_compute. split; reflexivity.
  - simpl. lia.
  - reflexivity.
  - discriminate.
  - reflexivity.
Defined.

(** * Further properties *)

(** ** Memory over whole sequences *)

Lemma exec_calls_app {T} sizeofT (h : gmap Z (block T)) cs1 cs2 :
  exec_calls sizeofT h (cs1 ++ cs2) =
    match exec_calls sizeofT h cs1 with
    | Some h' => exec_calls sizeofT h' cs2
    | None => None
    end.
Proof.
  revert h. induction cs1 as [|c cs1 IH]; intros h; [reflexivity|].
  cbn [app exec_calls].
  destruct (exec_call sizeofT h c) as [h'|]; [apply IH|reflexivity].
Qed.

Lemma kept_le ops k : kept ops k <= k.
Proof.
  revert k. induction ops as [|o ops IH]; intros k; [reflexivity|].
  change (kept ops (keeps o k) <= k).
  specialize (IH (keeps o k)). destruct o; cbn [keeps] in *; lia.
Qed.

Lemma keeps_mono o k k' : k <= k' -> keeps o k <= keeps o k'.
Proof.
  intros Hle. destruct o; cbn [keeps]; lia.
Qed.

Lemma kept_mono ops k k' : k <= k' -> kept ops k <= kept ops k'.
Proof.
  revert k k'. induction ops as [|o ops IH]; intros k k' Hle; [exact Hle|].
  change (kept ops (keeps o k) <= kept ops (keeps o k')).
  apply IH, keeps_mono, Hle.
Qed.

Section Soundness.

Context {A : Type} `{HA : hostAllocator A}.
Context {T : Type}.
Variable sizeofT : Z.
Variable I : A -> gmap Z (block T) -> Prop.
Hypothesis sizeofT_pos : 0 < sizeofT.
Hypothesis I_tracks : tracks sizeofT I.

(** The calls of a growing [resize], over memory the allocator agrees
    with. *)
Lemma grow_memory_tracked (h h0 : gmap Z (block T)) b new_size stream p a' :
  invariant b ->
  _capacity b < new_size ->
  owns sizeofT h b ->
  delete (_data b) h = h0 ->
  p <> nullptr ->
  h !! p = None ->
  I a' (<[p := fresh_block sizeofT (new_size * sizeofT)]> h) ->
  exists h',
    exec_calls sizeofT h
      ([Allocate (new_size * sizeofT) stream (Some p)]
       ++ (if 0 <? _size b
           then [MemcpyAsync p (_data b) (_size b * sizeofT) stream]
           else [])
       ++ (if _data b =? nullptr then []
           else [Deallocate (_data b) (_capacity b * sizeofT) stream]))
      = Some h'
    /\ owns sizeofT h' (mk_host_buffer new_size new_size p)
    /\ delete p h' = h0
    /\ I (if _data b =? nullptr then a'
          else deallocate a' (_data b) (_capacity b * sizeofT) stream) h'
    /\ (forall pos, 0 <= pos < _size b ->
          element h' (mk_host_buffer new_size new_size p) pos =
            element h b pos).
Proof.
  intros [Hsize Hdata] Hlt Hown Hframe Hp Hfresh HI.
  cbn [app exec_calls]. rewrite (exec_allocate_fresh sizeofT h _ _ p Hp Hfresh).
  destruct (Z.eqb_spec (_data b) nullptr) as [Hnull|Hheld].
  - assert (Hcap : ~ 0 < _capacity b)
      by (intros Hc; apply Hdata in Hc; contradiction).
    destruct (Z.ltb_spec 0 (_size b)) as [Hpos|_]; [lia|].
    cbn [app exec_calls]. eexists. split; [reflexivity|].
    split; [|split; [|split]].
    + unfold owns. cbn [_data _capacity]. rewrite lookup_insert_eq.
      split; [reflexivity|]. apply fresh_block_length; lia.
    + rewrite delete_insert_id by exact Hfresh.
      rewrite <- Hframe, Hnull. symmetry. apply delete_id.
      pose proof (tracks_null _ _ I_tracks _ _ HI) as Hn.
      rewrite lookup_insert_ne in Hn by exact Hp. exact Hn.
    + exact HI.
    + intros pos Hpos. lia.
  - destruct (owns_live sizeofT h b Hown Hheld) as (blk & Hlive & Hbytes & Hlen).
    assert (Hpd : p <> _data b) by (intros ->; congruence).
    assert (Hdp : _data b <> p) by (intros Heq; apply Hpd; symmetry; exact Heq).
    destruct (Z.ltb_spec 0 (_size b)) as [Hpos|Hzero].
    + cbn [app exec_calls].
      rewrite (exec_memcpy_fits sizeofT _ p (_data b) _ _
                 (fresh_block sizeofT (new_size * sizeofT)) blk).
      2: { apply lookup_insert_eq. }
      2: { rewrite lookup_insert_ne by exact Hpd. exact Hlive. }
      2: { cbn [block_bytes fresh_block]. nia. }
      2: { rewrite Hbytes. nia. }
      rewrite (exec_deallocate_live sizeofT _ (_data b) _ _ blk).
      2: { rewrite !lookup_insert_ne by exact Hpd. exact Hlive. }
      2: { exact Hbytes. }
      eexists. split; [reflexivity|]. split; [|split; [|split]].
      * unfold owns. cbn [_data _capacity].
        rewrite lookup_delete_ne by exact Hdp.
        rewrite lookup_insert_eq. cbn [block_bytes cells fresh_block].
        split; [reflexivity|].
        rewrite copy_cells_whole by lia.
        rewrite length_app, length_take, length_drop, length_replicate.
        rewrite Z.div_mul by lia. lia.
      * rewrite insert_insert_eq, delete_delete.
        rewrite delete_insert_id by exact Hfresh. exact Hframe.
      * apply (tracks_deallocate _ _ I_tracks).
        apply (tracks_write _ _ I_tracks); [exact HI|].
        rewrite lookup_insert_eq. eexists. reflexivity.
      * intros pos Hrange.
        rewrite (element_live _ (mk_host_buffer new_size new_size p) pos
                   (mk_block (new_size * sizeofT)
                      (copy_cells T sizeofT (_size b * sizeofT) (cells blk)
                         (cells (fresh_block sizeofT (new_size * sizeofT)))))).
        2: { cbn [_data]. rewrite lookup_delete_ne by exact Hdp.
             apply lookup_insert_eq. }
        2: { lia. }
        rewrite (element_live h b pos blk Hlive) by lia.
        cbn [cells]. rewrite copy_cells_whole by lia.
        rewrite lookup_app_l by (rewrite length_take; lia).
        rewrite lookup_take_lt by lia. reflexivity.
    + cbn [app exec_calls].
      rewrite (exec_deallocate_live sizeofT _ (_data b) _ _ blk).
      2: { rewrite lookup_insert_ne by exact Hpd. exact Hlive. }
      2: { exact Hbytes. }
      eexists. split; [reflexivity|]. split; [|split; [|split]].
      * unfold owns. cbn [_data _capacity].
        rewrite lookup_delete_ne by exact Hdp.
        rewrite lookup_insert_eq.
        split; [reflexivity|]. apply fresh_block_length; lia.
      * rewrite delete_delete.
        rewrite delete_insert_id by exact Hfresh. exact Hframe.
      * apply (tracks_deallocate _ _ I_tracks). exact HI.
      * intros pos Hrange. lia.
Qed.

(** Handing the block back, as [release] and the destructor do. *)
Lemma return_block (h0 h : gmap Z (block T)) (m : machine A) stream :
  sound sizeofT I h0 m h ->
  exec_calls sizeofT h
    (if _data (this m) =? nullptr then []
     else [Deallocate (_data (this m))
             (size_mul (_capacity (this m)) sizeofT) stream]) = Some h0
  /\ I (if _data (this m) =? nullptr then allocator m
        else deallocate (allocator m) (_data (this m))
               (size_mul (_capacity (this m)) sizeofT) stream) h0.
Proof.
  intros (Hinv & Hfit & HI & Hown & Hframe).
  destruct (Z.eqb_spec (_data (this m)) nullptr) as [Hnull|Hheld].
  - rewrite Hnull in Hframe.
    rewrite delete_id in Hframe by exact (tracks_null _ _ I_tracks _ _ HI).
    subst h0. split; [reflexivity|exact HI].
  - destruct (owns_live sizeofT h _ Hown Hheld) as (blk & Hlive & Hbytes & _).
    rewrite (size_mul_exact _ _ Hfit). cbn [exec_calls].
    rewrite (exec_deallocate_live sizeofT h _ _ stream blk Hlive Hbytes).
    rewrite Hframe. split; [reflexivity|].
    rewrite <- Hframe. apply (tracks_deallocate _ _ I_tracks). exact HI.
Qed.

Lemma sound_nothing_held (h0 : gmap Z (block T)) a cs sz :
  I a h0 ->
  sz = 0 ->
  sound sizeofT I h0 (mk_machine (mk_host_buffer sz sz nullptr) a cs) h0.
Proof.
  intros HI ->.
  pose proof (tracks_null _ _ I_tracks _ _ HI) as Hn.
  unfold sound, invariant, owns.
  cbn [this allocator calls _size _capacity _data]. rewrite Hn.
  split; [split; [lia|split; [intros Hne; contradiction|lia]]|].
  split; [unfold is_size_t, SIZE_MAX; lia|].
  split; [exact HI|]. split; [reflexivity|].
  apply delete_id; exact Hn.
Qed.

Lemma release_sound (h0 h : gmap Z (block T)) (m : machine A) stream :
  sound sizeofT I h0 m h ->
  sound sizeofT I h0 (snd (release sizeofT stream m)) h0
  /\ exists cs,
       calls (snd (release sizeofT stream m)) = calls m ++ cs
       /\ exec_calls sizeofT h cs = Some h0.
Proof.
  intros Hs. destruct (return_block h0 h m stream Hs) as [Hret HI'].
  rewrite release_eq. cbn [snd calls]. split.
  - apply sound_nothing_held; [exact HI'|reflexivity].
  - eexists. split; [reflexivity|exact Hret].
Qed.

Lemma construct_sound (h0 : gmap Z (block T)) n a (m : machine A) :
  I a h0 ->
  0 <= n ->
  is_size_t (n * sizeofT) ->
  construct sizeofT n (raw a) = (Ok tt, m) ->
  exists h,
    sound sizeofT I h0 m h /\ exec_calls sizeofT h0 (calls m) = Some h.
Proof.
  intros HI Hn Hbytes. rewrite construct_eq, (size_mul_exact _ _ Hbytes).
  cbn [raw allocator calls app].
  destruct (Z.ltb_spec 0 n) as [Hpos|Hzero].
  - destruct (allocate a (n * sizeofT) default_stream) as [[p|] a'] eqn:Hal;
      intros Heq; [|discriminate].
    injection Heq as <-.
    destruct (tracks_allocate _ _ I_tracks _ _ _ _ _ _ HI Hal)
      as (Hp & Hfresh & HI').
    exists (<[p := fresh_block sizeofT (n * sizeofT)]> h0).
    unfold sound, invariant, owns. cbn [this allocator calls _size _capacity _data].
    rewrite lookup_insert_eq.
    split; [split; [split; [lia|split; [lia|intros _; exact Hp]]|]|].
    + split; [exact Hbytes|]. split; [exact HI'|].
      split; [split; [reflexivity|apply fresh_block_length; lia]|].
      apply delete_insert_id; exact Hfresh.
    + cbn [exec_calls].
      rewrite (exec_allocate_fresh sizeofT h0 _ _ p Hp Hfresh). reflexivity.
  - intros Heq. injection Heq as <-. exists h0.
    split; [apply sound_nothing_held; [exact HI|lia]|reflexivity].
Qed.

Lemma resize_sound (h0 h : gmap Z (block T)) new_size stream (m : machine A) :
  sound sizeofT I h0 m h ->
  0 <= new_size ->
  is_size_t (new_size * sizeofT) ->
  exists cs h',
    calls (snd (resize sizeofT new_size stream m)) = calls m ++ cs
    /\ exec_calls sizeofT h cs = Some h'
    /\ sound sizeofT I h0 (snd (resize sizeofT new_size stream m)) h'
    /\ (forall pos, 0 <= pos < Z.min (_size (this m)) new_size ->
          element h' (this (snd (resize sizeofT new_size stream m))) pos =
            element h (this m) pos).
Proof.
  intros (Hinv & Hfit & HI & Hown & Hframe) Hn Hbytes.
  pose proof Hinv as [Hsize Hdata].
  destruct (Z.ltb_spec (_capacity (this m)) new_size) as [Hlt|Hge].
  - destruct (allocate (allocator m) (size_mul new_size sizeofT) stream)
      as [[p|] a'] eqn:Hal.
    + rewrite (resize_grow_eq sizeofT new_size stream m p a');
        [|apply Z.ltb_lt; exact Hlt|exact Hal].
      destruct (tracks_allocate _ _ I_tracks _ _ _ _ _ _ HI Hal)
        as (Hp & Hfresh & HI').
      assert (Hsz : is_size_t (_size (this m) * sizeofT))
        by (unfold is_size_t in *; nia).
      rewrite (size_mul_exact _ _ Hbytes) in *.
      rewrite (size_mul_exact _ _ Hfit), (size_mul_exact _ _ Hsz).
      destruct (grow_memory_tracked h h0 (this m) new_size stream p a'
                  Hinv Hlt Hown Hframe Hp Hfresh HI')
        as (h' & Hex & Hown' & Hframe' & HI'' & Hel).
      eexists. exists h'. cbn [snd calls].
      split; [reflexivity|]. split; [exact Hex|]. split.
      * unfold sound, invariant. cbn [this allocator calls _size _capacity _data].
        split; [split; [lia|split; [lia|intros _; exact Hp]]|].
        split; [exact Hbytes|]. split; [exact HI''|].
        split; [exact Hown'|exact Hframe'].
      * intros pos Hpos. cbn [this]. apply Hel. lia.
    + rewrite (resize_throw_eq sizeofT new_size stream m a');
        [|apply Z.ltb_lt; exact Hlt|exact Hal].
      eexists. exists h. cbn [snd calls].
      split; [reflexivity|]. split; [reflexivity|]. split; [|reflexivity].
      unfold sound. cbn [this allocator calls].
      split; [exact Hinv|]. split; [exact Hfit|].
      split; [exact (tracks_fail _ _ I_tracks _ _ _ _ _ HI Hal)|].
      split; [exact Hown|exact Hframe].
  - rewrite resize_keep_eq; [|apply Z.ltb_ge; exact Hge].
    exists [], h. cbn [snd calls]. rewrite app_nil_r.
    split; [reflexivity|]. split; [reflexivity|]. split; [|reflexivity].
    unfold sound, invariant. cbn [this allocator calls _size _capacity _data].
    split; [split; [lia|exact Hdata]|].
    split; [exact Hfit|]. split; [exact HI|].
    split; [exact Hown|exact Hframe].
Qed.

(** The size after a [resize], whatever its outcome. *)
Lemma resize_size_bound new_size stream (m : machine A) :
  Z.min (_size (this m)) new_size
    <= _size (this (snd (resize sizeofT new_size stream m))).
Proof.
  destruct (Z.ltb_spec (_capacity (this m)) new_size) as [Hlt|Hge].
  - destruct (allocate (allocator m) (size_mul new_size sizeofT) stream)
      as [[p|] a'] eqn:Hal.
    + rewrite (resize_grow_eq sizeofT new_size stream m p a');
        [|apply Z.ltb_lt; exact Hlt|exact Hal].
      cbn. lia.
    + rewrite (resize_throw_eq sizeofT new_size stream m a');
        [|apply Z.ltb_lt; exact Hlt|exact Hal].
      cbn. lia.
  - rewrite resize_keep_eq by (apply Z.ltb_ge; exact Hge). cbn. lia.
Qed.

(** One operation keeps the buffer in good standing and the elements the
    operation promises. *)
Lemma step_sound (h0 h : gmap Z (block T)) o (m : machine A) :
  sound sizeofT I h0 m h ->
  fits sizeofT o ->
  exists cs h',
    calls (step sizeofT m o) = calls m ++ cs
    /\ exec_calls sizeofT h cs = Some h'
    /\ sound sizeofT I h0 (step sizeofT m o) h'
    /\ keeps o (_size (this m)) <= _size (this (step sizeofT m o))
    /\ (forall pos, 0 <= pos < keeps o (_size (this m)) ->
          element h' (this (step sizeofT m o)) pos = element h (this m) pos).
Proof.
  intros Hs Hfits.
  destruct o;
    try (exists [], h; split; [symmetry; apply app_nil_r|];
         split; [reflexivity|]; split; [exact Hs|];
         split; [cbn; lia|reflexivity]).
  - destruct Hfits as [Hn Hbytes].
    destruct (resize_sound h0 h new_size stream m Hs Hn Hbytes)
      as (cs & h' & Hcs & Hex & Hs' & Hel).
    exists cs, h'. split; [exact Hcs|]. split; [exact Hex|].
    split; [exact Hs'|]. split; [apply resize_size_bound|exact Hel].
  - exists [], h.
    destruct Hs as ([Hsize Hdata] & Hfit & HI & Hown & Hframe).
    split; [symmetry; apply app_nil_r|]. split; [reflexivity|].
    split; [|split; [cbn; lia|intros pos Hpos; cbn in Hpos; lia]].
    unfold sound, invariant, step.
    cbn [perform clear set_size snd this allocator calls _size _capacity _data].
    split; [split; [lia|exact Hdata]|].
    split; [exact Hfit|]. split; [exact HI|].
    split; [exact Hown|exact Hframe].
  - destruct (release_sound h0 h m stream Hs) as (Hs' & cs & Hcs & Hex).
    exists cs, h0. split; [exact Hcs|]. split; [exact Hex|].
    split; [exact Hs'|].
    unfold step. cbn [perform keeps]. rewrite release_eq. cbn.
    split; [lia|intros pos Hpos; lia].
Qed.

Lemma run_sound (h0 h : gmap Z (block T)) ops (m : machine A) :
  sound sizeofT I h0 m h ->
  Forall (fits sizeofT) ops ->
  exists cs h',
    calls (run sizeofT ops m) = calls m ++ cs
    /\ exec_calls sizeofT h cs = Some h'
    /\ sound sizeofT I h0 (run sizeofT ops m) h'
    /\ kept ops (_size (this m)) <= _size (this (run sizeofT ops m))
    /\ (forall pos, 0 <= pos < kept ops (_size (this m)) ->
          element h' (this (run sizeofT ops m)) pos = element h (this m) pos).
Proof.
  revert m h. induction ops as [|o ops IH]; intros m h Hs Hfits.
  - exists [], h. split; [symmetry; apply app_nil_r|].
    split; [reflexivity|]. split; [exact Hs|].
    split; [cbn; lia|reflexivity].
  - apply Forall_cons in Hfits as [Ho Hops].
    destruct (step_sound h0 h o m Hs Ho)
      as (cs1 & h1 & Hcs1 & Hex1 & Hs1 & Hsz1 & Hel1).
    destruct (IH _ _ Hs1 Hops) as (cs2 & h' & Hcs2 & Hex2 & Hs' & Hsz' & Hel').
    exists (cs1 ++ cs2), h'.
    change (run sizeofT (o :: ops) m)
      with (run sizeofT ops (step sizeofT m o)).
    change (kept (o :: ops) (_size (this m)))
      with (kept ops (keeps o (_size (this m)))).
    pose proof (kept_mono ops _ _ Hsz1) as Hmono.
    pose proof (kept_le ops (keeps o (_size (this m)))) as Hle.
    split; [rewrite Hcs2, Hcs1, app_assoc; reflexivity|].
    split; [rewrite exec_calls_app, Hex1; exact Hex2|].
    split; [exact Hs'|]. split; [lia|].
    intros pos Hpos. rewrite Hel' by lia. apply Hel1. lia.
Qed.

(** A write through [operator[]] below [_capacity] lands in the block and
    leaves the buffer in good standing. *)
Lemma assign_sound (h0 h : gmap Z (block T)) (m : machine A) pos v :
  sound sizeofT I h0 m h ->
  0 <= pos < _capacity (this m) ->
  exists h',
    assign h (this m) pos v = Some h'
    /\ sound sizeofT I h0 m h'
    /\ element h' (this m) pos = Some v
    /\ (forall pos', 0 <= pos' -> pos' <> pos ->
          element h' (this m) pos' = element h (this m) pos').
Proof.
  intros (Hinv & Hfit & HI & Hown & Hframe) Hpos.
  pose proof Hinv as [Hsize Hdata].
  assert (Hheld : _data (this m) <> nullptr) by (apply Hdata; lia).
  destruct (owns_live sizeofT h _ Hown Hheld) as (blk & Hlive & Hbytes & Hlen).
  unfold assign. rewrite Hlive.
  destruct (decide (0 <= pos < Z.of_nat (length (cells blk)))) as [_|Hno];
    [|exfalso; apply Hno; lia].
  eexists. split; [reflexivity|]. split; [|split].
  - unfold sound. split; [exact Hinv|]. split; [exact Hfit|].
    split; [apply (tracks_write _ _ I_tracks); [exact HI|eexists; exact Hlive]|].
    split.
    + unfold owns. rewrite lookup_insert_eq. cbn [block_bytes cells].
      rewrite length_insert. split; assumption.
    + rewrite delete_insert_eq. exact Hframe.
  - unfold element. rewrite lookup_insert_eq. cbn [cells].
    destruct (decide (0 <= pos)) as [_|Hno]; [|lia].
    rewrite list_lookup_insert_eq by lia. reflexivity.
  - intros pos' Hpos' Hne. unfold element.
    rewrite lookup_insert_eq, Hlive. cbn [cells].
    destruct (decide (0 <= pos')) as [_|Hno]; [|reflexivity].
    rewrite list_lookup_insert_ne by lia. reflexivity.
Qed.

End Soundness.

(** ** How calls and operations compose *)

Lemma foldr_max_push c n l :
  foldr Z.max (Z.max c n) l = Z.max n (foldr Z.max c l).
Proof.
  induction l as [|x l IH]; simpl; [lia|]. rewrite IH. lia.
Qed.

Section Composition.

Context {A : Type} `{HA : hostAllocator A}.
Variable sizeofT : Z.

(** X6: when every call of a run of [resize] calls returns, the capacity at
    the end is exactly the largest of the starting capacity and the targets:
    growth is to the requested size, never beyond. *)
Theorem resize_all_capacity_exact targets (m m' : machine A) :
  resize_all sizeofT targets m = (Ok tt, m') ->
  _capacity (this m') = foldr Z.max (_capacity (this m)) (map fst targets).
Proof.
  revert m. induction targets as [|[new_size stream] rest IH]; intros m Hrun.
  - injection Hrun as <-. reflexivity.
  - simpl in Hrun. unfold bind in Hrun.
    destruct (resize sizeofT new_size stream m) as [r1 m1] eqn:Hfirst.
    destruct (resize_post sizeofT _ _ _ _ _ Hfirst) as (_ & Hok & _).
    destruct r1 as [[]|e]; [|discriminate].
    destruct (Hok eq_refl) as [_ Hcap].
    rewrite (IH _ Hrun), Hcap. simpl. apply foldr_max_push.
Qed.

(** X7: [resize] throws exactly when it has to grow and the allocator
    cannot supply the block. *)
Theorem resize_throws_iff new_size stream (m : machine A) :
  fst (resize sizeofT new_size stream m) = Throw allocation_error
  <-> (_capacity (this m) < new_size
       /\ fst (allocate (allocator m) (size_mul new_size sizeofT) stream)
            = None).
Proof.
  destruct (Z.ltb_spec (_capacity (this m)) new_size) as [Hlt|Hge].
  - destruct (allocate (allocator m) (size_mul new_size sizeofT) stream)
      as [[p|] a'] eqn:Hal.
    + rewrite (resize_grow_eq sizeofT new_size stream m p a');
        [|apply Z.ltb_lt; exact Hlt|exact Hal].
      simpl. split; [discriminate|intros [_ Hno]; discriminate].
    + rewrite (resize_throw_eq sizeofT new_size stream m a');
        [|apply Z.ltb_lt; exact Hlt|exact Hal].
      simpl. split; [intros _; split; [exact Hlt|reflexivity]|reflexivity].
  - rewrite resize_keep_eq by (apply Z.ltb_ge; exact Hge).
    simpl. split; [discriminate|intros [Hlt _]; lia].
Qed.

(** X8: a [resize] that returned can be repeated with the same target, on
    any stream: the second call returns the same machine and makes no
    call. *)
Theorem resize_twice new_size stream stream' (m m1 : machine A) :
  resize sizeofT new_size stream m = (Ok tt, m1) ->
  resize sizeofT new_size stream' m1 = (Ok tt, m1).
Proof.
  intros Hcall.
  destruct (resize_post sizeofT _ _ _ _ _ Hcall) as (_ & Hok & _).
  destruct (Hok eq_refl) as [Hsz Hcap].
  rewrite resize_keep_eq by (apply Z.ltb_ge; lia).
  destruct m1 as [[sz cap d] a cs]. simpl in *. subst sz. reflexivity.
Qed.

(** X9: shrinking to any size within the capacity and resizing back to the
    old size gives back the very machine one started from: same fields,
    same allocator, no call. *)
Theorem shrink_and_grow_back k s1 s2 (m : machine A) :
  _size (this m) <= _capacity (this m) ->
  k <= _capacity (this m) ->
  resize sizeofT (_size (this m)) s2 (snd (resize sizeofT k s1 m)) = (Ok tt, m).
Proof.
  intros Hsz Hk.
  rewrite (resize_keep_eq sizeofT k) by (apply Z.ltb_ge; exact Hk).
  rewrite resize_keep_eq by (apply Z.ltb_ge; exact Hsz).
  destruct m as [[sz cap d] a cs]. reflexivity.
Qed.

(** X10: every call [resize(new_size, stream)] and [release(stream)] make
    is submitted on [stream]; every call the constructor and the destructor
    make is submitted on the default stream. *)
Theorem calls_carry_the_stream n new_size stream (m : machine A) :
  (exists cs, calls (snd (resize sizeofT new_size stream m)) = calls m ++ cs
              /\ Forall (fun c => call_stream c = stream) cs)
  /\ (exists cs, calls (snd (release sizeofT stream m)) = calls m ++ cs
                 /\ Forall (fun c => call_stream c = stream) cs)
  /\ (exists cs, calls (snd (construct sizeofT n m)) = calls m ++ cs
                 /\ Forall (fun c => call_stream c = default_stream) cs)
  /\ (exists cs, calls (snd (destroy sizeofT m)) = calls m ++ cs
                 /\ Forall (fun c => call_stream c = default_stream) cs).
Proof.
  split; [|split; [|split]].
  - destruct (Z.ltb_spec (_capacity (this m)) new_size) as [Hlt|Hge].
    + destruct (allocate (allocator m) (size_mul new_size sizeofT) stream)
        as [[p|] a'] eqn:Hal.
      * rewrite (resize_grow_eq sizeofT new_size stream m p a');
          [|apply Z.ltb_lt; exact Hlt|exact Hal].
        eexists. split; [reflexivity|].
        destruct (0 <? _size (this m)); destruct (_data (this m) =? nullptr);
          repeat constructor.
      * rewrite (resize_throw_eq sizeofT new_size stream m a');
          [|apply Z.ltb_lt; exact Hlt|exact Hal].
        eexists. split; [reflexivity|]. repeat constructor.
    + rewrite resize_keep_eq by (apply Z.ltb_ge; exact Hge).
      exists []. split; [symmetry; apply app_nil_r|constructor].
  - rewrite release_eq. eexists. split; [reflexivity|].
    destruct (_data (this m) =? nullptr); repeat constructor.
  - rewrite construct_eq. destruct (0 <? n).
    + destruct (allocate (allocator m) (size_mul n sizeofT) default_stream)
        as [[p|] a']; eexists; (split; [reflexivity|repeat constructor]).
    + exists []. split; [symmetry; apply app_nil_r|constructor].
  - rewrite destroy_eq. eexists. split; [reflexivity|].
    destruct (_data (this m) =? nullptr); repeat constructor.
Qed.

(** X11: the usage the header documents: construct with size [0], [resize]
    on the caller's stream, [release] on that stream, scope exit.  When the
    allocator supplies a non-null block the allocator sees exactly one
    [allocate] and one [deallocate] of that block with the same byte size,
    both on the caller's stream: nothing is copied, nothing is submitted on
    the default stream, and the destructor has nothing left to do. *)
Theorem documented_usage n stream a p a' :
  0 < n ->
  p <> nullptr ->
  allocate a (size_mul n sizeofT) stream = (Some p, a') ->
  calls (lifetime sizeofT 0 [op_resize n stream; op_release stream] a) =
    [Allocate (size_mul n sizeofT) stream (Some p);
     Deallocate p (size_mul n sizeofT) stream].
Proof.
  intros Hn Hp Hal. unfold lifetime, raw. rewrite construct_eq.
  change (0 <? 0) with false. cbv iota. cbn [calls allocator].
  unfold run. cbn [fold_left]. unfold step. cbn [perform].
  rewrite (resize_grow_eq sizeofT n stream
             (mk_machine (mk_host_buffer 0 0 nullptr) a []) p a');
    [|apply Z.ltb_lt; exact Hn|exact Hal].
  cbn [snd]. rewrite release_eq. cbn [snd]. rewrite destroy_eq.
  cbn [snd this allocator calls _size _capacity _data].
  destruct (Z.eqb_spec p nullptr) as [Hnull|_]; [contradiction|].
  reflexivity.
Qed.

(** X12: growing after [clear()] copies nothing: the calls are the
    [allocate] of the new block and, when a block was held, its
    [deallocate]; there is no [cudaMemcpyAsync]. *)
Theorem clear_then_grow_copies_nothing new_size stream (m : machine A) p a' :
  _capacity (this m) < new_size ->
  allocate (allocator m) (size_mul new_size sizeofT) stream = (Some p, a') ->
  calls (snd (resize sizeofT new_size stream (snd (clear m)))) =
    calls m
    ++ [Allocate (size_mul new_size sizeofT) stream (Some p)]
    ++ (if _data (this m) =? nullptr then []
        else [Deallocate (_data (this m))
                (size_mul (_capacity (this m)) sizeofT) stream]).
Proof.
  intros Hlt Hal.
  rewrite (resize_grow_eq sizeofT new_size stream (snd (clear m)) p a');
    [reflexivity|apply Z.ltb_lt; exact Hlt|exact Hal].
Qed.

(** X14: between the operations of a constructed buffer, the blocks in
    hand are exactly the one [_data] points to, or none when [_data] is
    null: the buffer never holds two blocks once a call has returned. *)
Theorem one_block_between_calls n ops a (m : machine A) :
  construct sizeofT n (raw a) = (Ok tt, m) ->
  outstanding (calls (run sizeofT ops m)) =
    Some (held sizeofT (this (run sizeofT ops m)))
  /\ (length (held sizeofT (this (run sizeofT ops m))) <= 1)%nat.
Proof.
  intros Hc. split.
  - apply run_outstanding. exact (construct_outstanding sizeofT n a m Hc).
  - unfold held. destruct (_data (this (run sizeofT ops m)) =? nullptr);
      simpl; lia.
Qed.

(** X15: the queries ([operator[]], [data], [size], [begin], [end],
    [getAllocator]) can be dropped from any sequence of operations: the
    machine at the end, fields, allocator and recorded calls, is the
    same. *)
Theorem queries_are_transparent ops (m : machine A) :
  run sizeofT ops m =
    run sizeofT (List.filter (fun o => negb (is_query o)) ops) m.
Proof.
  revert m. induction ops as [|o ops IH]; intros m; [reflexivity|].
  destruct o; cbn [List.filter is_query negb]; cbn [run fold_left];
    try apply IH.
  all: change (step sizeofT m ?o) with m; apply IH.
Qed.

(** X16: only [release] gives capacity back: over any sequence of
    operations without a [release], the capacity at the end is not below
    the capacity at the start. *)
Theorem capacity_only_drops_on_release ops (m : machine A) :
  Forall (fun o => match o with op_release _ => False | _ => True end) ops ->
  _capacity (this m) <= _capacity (this (run sizeofT ops m)).
Proof.
  revert m. induction ops as [|o ops IH]; intros m Hops; [reflexivity|].
  apply Forall_cons in Hops as [Ho Hops].
  change (run sizeofT (o :: ops) m) with (run sizeofT ops (step sizeofT m o)).
  specialize (IH (step sizeofT m o) Hops).
  enough (_capacity (this m) <= _capacity (this (step sizeofT m o))) by lia.
  destruct o; try reflexivity; [|contradiction].
  unfold step. cbn [perform].
  destruct (resize sizeofT new_size stream m) as [r m1] eqn:Hcall.
  destruct (resize_post sizeofT _ _ _ _ _ Hcall) as (Hmono & _). exact Hmono.
Qed.

End Composition.

(** ** Memory over a buffer's life *)

Section Life.

Context {A : Type} `{HA : hostAllocator A}.
Context {T : Type}.
Variable sizeofT : Z.
Variable I : A -> gmap Z (block T) -> Prop.

(** X1: construct a buffer and run any operations whose byte sizes fit in
    [size_t], over an allocator that agrees with memory.  At every point
    memory allows the calls recorded so far (no copy past the end of a
    block, no return of a block that is not live), the invariants hold, the
    buffer's block is live with exactly [_capacity] elements (or [_data] is
    null), and every other block is as it was before construction. *)
Theorem buffer_owns_block_throughout n ops a (m : machine A)
    (h0 : gmap Z (block T)) :
  0 < sizeofT ->
  tracks sizeofT I ->
  I a h0 ->
  0 <= n ->
  is_size_t (n * sizeofT) ->
  Forall (fits sizeofT) ops ->
  construct sizeofT n (raw a) = (Ok tt, m) ->
  exists h,
    exec_calls sizeofT h0 (calls (run sizeofT ops m)) = Some h
    /\ invariant (this (run sizeofT ops m))
    /\ owns sizeofT h (this (run sizeofT ops m))
    /\ delete (_data (this (run sizeofT ops m))) h = h0.
Proof.
  intros Hpos Ht HI Hn Hbytes Hops Hc.
  destruct (construct_sound sizeofT I Hpos Ht h0 n a m HI Hn Hbytes Hc)
    as (h1 & Hs1 & Hex1).
  destruct (run_sound sizeofT I Hpos Ht h0 h1 ops m Hs1 Hops)
    as (cs & h & Hcs & Hex & (Hinv & _ & _ & Hown & Hframe) & _).
  exists h. split; [|split; [exact Hinv|split; [exact Hown|exact Hframe]]].
  rewrite Hcs, exec_calls_app, Hex1. exact Hex.
Qed.

(** X2: a whole lifetime (construction, any operations whose byte sizes fit
    in [size_t], destruction) over an allocator that agrees with memory
    leaves memory exactly as it found it: memory allows every call, no block
    is left behind and no other block is touched.  This holds also when the
    constructor or a [resize] throws. *)
Theorem lifetime_leaves_memory_as_found n ops a (h0 : gmap Z (block T)) :
  0 < sizeofT ->
  tracks sizeofT I ->
  I a h0 ->
  0 <= n ->
  is_size_t (n * sizeofT) ->
  Forall (fits sizeofT) ops ->
  exec_calls sizeofT h0 (calls (lifetime sizeofT n ops a)) = Some h0.
Proof.
  intros Hpos Ht HI Hn Hbytes Hops. unfold lifetime.
  destruct (construct sizeofT n (raw a)) as [[[]|e] m] eqn:Hc.
  - destruct (construct_sound sizeofT I Hpos Ht h0 n a m HI Hn Hbytes Hc)
      as (h1 & Hs1 & Hex1).
    destruct (run_sound sizeofT I Hpos Ht h0 h1 ops m Hs1 Hops)
      as (cs & h & Hcs & Hex & Hs & _).
    destruct (return_block sizeofT I Ht h0 h _ default_stream Hs) as [Hret _].
    rewrite destroy_eq. cbn [snd calls].
    rewrite Hcs, !exec_calls_app, Hex1, Hex. exact Hret.
  - rewrite construct_eq in Hc. cbn [raw allocator calls app] in Hc.
    destruct (0 <? n); [|discriminate].
    destruct (allocate a (size_mul n sizeofT) default_stream) as [[p|] a'];
      [discriminate|].
    injection Hc as _ <-. reflexivity.
Qed.


(** X4: [operator[]] hands out [_data[pos]] and changes nothing; on a
    buffer in good standing a write through it at a position below
    [_capacity] (so at any position below [size()]) lands in the buffer's
    block: reading the position back gives the value written, every other
    position reads as before, and the buffer is still in good standing. *)
Theorem subscript_write_then_read (m : machine A) (h0 h : gmap Z (block T))
    pos v :
  0 < sizeofT ->
  tracks sizeofT I ->
  sound sizeofT I h0 m h ->
  0 <= pos < _capacity (this m) ->
  subscript pos m = (Ok (_data (this m), pos), m)
  /\ exists h',
       assign h (this m) pos v = Some h'
       /\ sound sizeofT I h0 m h'
       /\ element h' (this m) pos = Some v
       /\ (forall pos', 0 <= pos' -> pos' <> pos ->
             element h' (this m) pos' = element h (this m) pos').
Proof.
  intros Hpos Ht Hs Hrange. split; [reflexivity|].
  exact (assign_sound sizeofT I Hpos Ht h0 h m pos v Hs Hrange).
Qed.

(** X5: on a buffer that satisfies the invariants and owns its block,
    [begin()] is the start of the block, [end()] is [size()] elements
    further, and every position from [begin()] up to [end()] is a cell of
    the live block: the range never leaves the block, whatever the
    capacity. *)
Theorem range_lies_in_block (m : machine A) (h : gmap Z (block T)) :
  invariant (this m) ->
  owns sizeofT h (this m) ->
  _data (this m) <> nullptr ->
  begin_ m = (Ok (_data (this m), 0), m)
  /\ end_ m = (Ok (_data (this m), _size (this m)), m)
  /\ exists blk,
       h !! _data (this m) = Some blk
       /\ _size (this m) <= Z.of_nat (length (cells blk))
       /\ (forall pos, 0 <= pos < _size (this m) ->
             is_Some (cells blk !! Z.to_nat pos)).
Proof.
  intros [Hsize _] Hown Hheld. split; [reflexivity|]. split; [reflexivity|].
  destruct (owns_live sizeofT h _ Hown Hheld) as (blk & Hlive & _ & Hlen).
  exists blk. split; [exact Hlive|]. split; [lia|].
  intros pos Hpos. apply lookup_lt_is_Some. lia.
Qed.

End Life.

Section Wrap.

Context {A : Type} `{HA : hostAllocator A}.
Context {T : Type}.
Variable sizeofT : Z.

(** X13: the constructor does not check the byte size.  For a positive
    [n] whose byte size [n * sizeof(T)] exceeds [SIZE_MAX], it asks the
    allocator for the wrapped size, which is smaller, and when the allocator
    supplies that block it returns normally with [_capacity = n]: in memory
    the block is then smaller than the capacity the buffer reports. *)
Theorem construct_wraps n (m0 : machine A) p a' (h h' : gmap Z (block T)) :
  0 < n ->
  0 < sizeofT ->
  SIZE_MAX < n * sizeofT ->
  allocate (allocator m0) (size_mul n sizeofT) default_stream = (Some p, a') ->
  exec_calls sizeofT h
    [Allocate (size_mul n sizeofT) default_stream (Some p);
     StreamSynchronize default_stream] = Some h' ->
  construct sizeofT n m0 =
    (Ok tt,
     mk_machine (mk_host_buffer n n p) a'
       (calls m0 ++ [Allocate (size_mul n sizeofT) default_stream (Some p);
                     StreamSynchronize default_stream]))
  /\ size_mul n sizeofT < n * sizeofT
  /\ ~ owns sizeofT h' (mk_host_buffer n n p).
Proof.
  intros Hn Hpos Hbig Hal Hex.
  assert (Hsmall : size_mul n sizeofT < n * sizeofT).
  { unfold size_mul, SIZE_MAX in *.
    pose proof (Z.mod_pos_bound (n * sizeofT) (2 ^ 64) ltac:(lia)). lia. }
  split; [|split; [exact Hsmall|]].
  - rewrite construct_eq.
    destruct (Z.ltb_spec 0 n) as [_|Hno]; [|lia]. rewrite Hal. reflexivity.
  - cbn [exec_calls exec_call] in Hex.
    destruct (decide (p <> nullptr /\ h !! p = None)) as [_|_];
      [|discriminate].
    injection Hex as <-. unfold owns. cbn [_data _capacity].
    rewrite lookup_insert_eq. cbn [block_bytes fresh_block]. lia.
Qed.

End Wrap.

(** ** The pool agrees with memory *)

Lemma pool_tracks {T : Type} sizeofT :
  tracks (T := T) sizeofT pool_live.
Proof.
  split.
  - intros a h Hlive.
    destruct (h !! nullptr) as [blk|] eqn:Hn; [|first [exact Hn|reflexivity]].
    apply Hlive in Hn. unfold nullptr in Hn. lia.
  - intros a n stream p a' h Hlive Hal. simpl in Hal.
    destruct (decide (in_use a + n <= budget a)); [|discriminate].
    injection Hal as <- <-. split; [discriminate|]. split.
    + destruct (h !! Z.pos (next_block a)) as [blk|] eqn:Hn;
        [|first [exact Hn|reflexivity]].
      apply Hlive in Hn. lia.
    + intros q blk Hq. cbn [next_block].
      apply lookup_insert_Some in Hq as [[<- _]|[_ Hq]]; [lia|].
      apply Hlive in Hq. lia.
  - intros a n stream a' h Hlive Hal. simpl in Hal.
    destruct (decide (in_use a + n <= budget a)); [discriminate|].
    injection Hal as <-. exact Hlive.
  - intros a p n stream h Hlive q blk Hq. cbn [deallocate pool_allocator next_block].
    apply lookup_delete_Some in Hq as [_ Hq]. exact (Hlive _ _ Hq).
  - intros a p blk h Hlive [old Hold] q blk' Hq.
    apply lookup_insert_Some in Hq as [[<- _]|[_ Hq]].
    + exact (Hlive _ _ Hold).
    + exact (Hlive _ _ Hq).
Qed.

Lemma pool_live_empty {T : Type} a : pool_live (T := T) a ∅.
Proof.
  intros p blk Hp. rewrite lookup_empty in Hp. discriminate.
Qed.

(** Ten [int32] elements holding [0 .. 9], of which three are in use. *)
Lemma pool_sound_ten :
  sound sizeof_int32 pool_live ∅
    (mk_machine (mk_host_buffer 3 10 1) (mk_pool 2 40 1000) [])
    (<[1 := mk_block 40 (map Some [0; 1; 2; 3; 4; 5; 6; 7; 8; 9])]> ∅).
Proof.
  unfold sound, invariant. cbn [this allocator _size _capacity _data].
  split; [split; [lia|split; [intros _; lia|intros _; discriminate]]|].
  split; [unfold is_size_t, SIZE_MAX, sizeof_int32; lia|].
  split; [|split].
  - intros q blk Hq. cbn [next_block].
    apply lookup_insert_Some in Hq as [[<- _]|[_ Hq]]; [lia|].
    rewrite lookup_empty in Hq. discriminate.
  - unfold owns. cbn [_data _capacity]. rewrite lookup_insert_eq.
    split; reflexivity.
  - apply delete_insert_id. apply lookup_empty.
Qed.

(** ** The further properties at concrete buffers *)

Ltac in_range :=
  cbn; unfold is_size_t, SIZE_MAX, sizeof_int32; first [exact I | lia].

Ltac all_in_range := repeat (constructor; [in_range|]); constructor.

Lemma buffer_owns_block_throughout_witness :
  exists h : gmap Z (block Z),
    exec_calls sizeof_int32 ∅
      (calls (run sizeof_int32 [op_resize 3 7; op_resize 20 7; op_clear]
                (snd (construct sizeof_int32 10 (raw small_pool))))) = Some h
    /\ invariant
         (this (run sizeof_int32 [op_resize 3 7; op_resize 20 7; op_clear]
                  (snd (construct sizeof_int32 10 (raw small_pool)))))
    /\ owns sizeof_int32 h
         (this (run sizeof_int32 [op_resize 3 7; op_resize 20 7; op_clear]
                  (snd (construct sizeof_int32 10 (raw small_pool)))))
    /\ delete
         (_data (this (run sizeof_int32 [op_resize 3 7; op_resize 20 7; op_clear]
                         (snd (construct sizeof_int32 10 (raw small_pool))))))
         h = ∅.
Proof.
  refine (buffer_owns_block_throughout sizeof_int32 pool_live 10
            [op_resize 3 7; op_resize 20 7; op_clear] small_pool
            (snd (construct sizeof_int32 10 (raw small_pool))) ∅
            _ (pool_tracks sizeof_int32) (pool_live_empty small_pool)
            _ _ _ eq_refl).
  - unfold sizeof_int32. lia.
  - lia.
  - in_range.
  - all_in_range.
Defined.

Lemma lifetime_leaves_memory_as_found_witness :
  exec_calls sizeof_int32 (∅ : gmap Z (block Z))
    (calls (lifetime sizeof_int32 100
              [op_resize 300 7; op_resize 150 7; op_release 9] small_pool))
    = Some ∅.
Proof.
  refine (lifetime_leaves_memory_as_found sizeof_int32 pool_live 100
            [op_resize 300 7; op_resize 150 7; op_release 9] small_pool ∅
            _ (pool_tracks sizeof_int32) (pool_live_empty small_pool) _ _ _).
  - unfold sizeof_int32. lia.
  - lia.
  - in_range.
  - all_in_range.
Defined.


Lemma subscript_write_then_read_witness :
  subscript 4 (mk_machine (mk_host_buffer 3 10 1) (mk_pool 2 40 1000) []) =
    (Ok (1, 4), mk_machine (mk_host_buffer 3 10 1) (mk_pool 2 40 1000) [])
  /\ exists h' : gmap Z (block Z),
       assign (<[1 := mk_block 40 (map Some [0; 1; 2; 3; 4; 5; 6; 7; 8; 9])]> ∅)
         (mk_host_buffer 3 10 1) 4 77 = Some h'
       /\ sound sizeof_int32 pool_live ∅
            (mk_machine (mk_host_buffer 3 10 1) (mk_pool 2 40 1000) []) h'
       /\ element h' (mk_host_buffer 3 10 1) 4 = Some 77
       /\ (forall pos', 0 <= pos' -> pos' <> 4 ->
             element h' (mk_host_buffer 3 10 1) pos' =
               element
                 (<[1 := mk_block 40 (map Some [0; 1; 2; 3; 4; 5; 6; 7; 8; 9])]> ∅)
                 (mk_host_buffer 3 10 1) pos').
Proof.
  refine (subscript_write_then_read sizeof_int32 pool_live
            (mk_machine (mk_host_buffer 3 10 1) (mk_pool 2 40 1000) [])
            ∅ _ 4 77 _ (pool_tracks sizeof_int32) pool_sound_ten _).
  - unfold sizeof_int32. lia.
  - cbn. lia.
Defined.

Lemma range_lies_in_block_witness :
  begin_ (mk_machine (mk_host_buffer 3 10 1) (mk_pool 2 40 1000) []) =
    (Ok (1, 0), mk_machine (mk_host_buffer 3 10 1) (mk_pool 2 40 1000) [])
  /\ end_ (mk_machine (mk_host_buffer 3 10 1) (mk_pool 2 40 1000) []) =
    (Ok (1, 3), mk_machine (mk_host_buffer 3 10 1) (mk_pool 2 40 1000) [])
  /\ exists blk : block Z,
       (<[1 := mk_block 40 (map Some [0; 1; 2; 3; 4; 5; 6; 7; 8; 9])]> ∅
          : gmap Z (block Z)) !! 1 = Some blk
       /\ 3 <= Z.of_nat (length (cells blk))
       /\ (forall pos, 0 <= pos < 3 -> is_Some (cells blk !! Z.to_nat pos)).
Proof.
  destruct pool_sound_ten as (Hinv & _ & _ & Hown & _).
  refine (range_lies_in_block sizeof_int32
            (mk_machine (mk_host_buffer 3 10 1) (mk_pool 2 40 1000) [])
            _ Hinv Hown _).
  discriminate.
Defined.

Lemma construct_wraps_witness :
  construct sizeof_int32 (2 ^ 62 + 1) (raw small_pool) =
    (Ok tt,
     mk_machine (mk_host_buffer (2 ^ 62 + 1) (2 ^ 62 + 1) 1)
       (mk_pool 2 4 1000)
       [Allocate 4 0 (Some 1); StreamSynchronize 0])
  /\ size_mul (2 ^ 62 + 1) sizeof_int32 < (2 ^ 62 + 1) * sizeof_int32
  /\ ~ owns sizeof_int32
         (<[1 := fresh_block sizeof_int32 4]> ∅ : gmap Z (block Z))
         (mk_host_buffer (2 ^ 62 + 1) (2 ^ 62 + 1) 1).
Proof.
  refine (construct_wraps sizeof_int32 (2 ^ 62 + 1) (raw small_pool) 1
            (mk_pool 2 4 1000) ∅ _ _ _ _ _ _).
  - lia.
  - unfold sizeof_int32. lia.
  - unfold SIZE_MAX, sizeof_int32. lia.
  - reflexivity.
  - reflexivity.
Defined.

Lemma resize_all_capacity_exact_witness :
  _capacity (this (snd (resize_all sizeof_int32 [(10, 7); (3, 7); (20, 8)]
                          (raw (mk_endless 1))))) =
    foldr Z.max 0 (map fst [(10, 7); (3, 7); (20, 8)]).
Proof.
  apply (resize_all_capacity_exact sizeof_int32 [(10, 7); (3, 7); (20, 8)]
           (raw (mk_endless 1))).
  reflexivity.
Defined.

Lemma resize_twice_witness :
  resize sizeof_int32 20 9
    (mk_machine (mk_host_buffer 20 20 2) (mk_pool 3 80 1000)
       [Allocate 80 7 (Some 2); MemcpyAsync 2 1 12 7; Deallocate 1 40 7]) =
    (Ok tt,
     mk_machine (mk_host_buffer 20 20 2) (mk_pool 3 80 1000)
       [Allocate 80 7 (Some 2); MemcpyAsync 2 1 12 7; Deallocate 1 40 7]).
Proof.
  apply (resize_twice sizeof_int32 20 7 9
           (mk_machine (mk_host_buffer 3 10 1) (mk_pool 2 40 1000) [])).
  reflexivity.
Defined.

Lemma shrink_and_grow_back_witness :
  resize sizeof_int32 8 5
    (snd (resize sizeof_int32 3 7
            (mk_machine (mk_host_buffer 8 10 1) small_pool []))) =
    (Ok tt, mk_machine (mk_host_buffer 8 10 1) small_pool []).
Proof.
  apply (shrink_and_grow_back sizeof_int32 3 7 5
           (mk_machine (mk_host_buffer 8 10 1) small_pool [])).
  - simpl. lia.
  - simpl. lia.
Defined.

Lemma documented_usage_witness :
  calls (lifetime sizeof_int32 0 [op_resize 100 7; op_release 7] small_pool) =
    [Allocate 400 7 (Some 1); Deallocate 1 400 7].
Proof.
  apply (documented_usage sizeof_int32 100 7 small_pool 1 (mk_pool 2 400 1000)).
  - lia.
  - discriminate.
  - reflexivity.
Defined.

Lemma clear_then_grow_copies_nothing_witness :
  calls (snd (resize sizeof_int32 20 7
                (snd (clear (mk_machine (mk_host_buffer 3 10 1)
                               (mk_pool 2 40 1000) []))))) =
    [Allocate 80 7 (Some 2); Deallocate 1 40 7].
Proof.
  apply (clear_then_grow_copies_nothing sizeof_int32 20 7
           (mk_machine (mk_host_buffer 3 10 1) (mk_pool 2 40 1000) [])
           2 (mk_pool 3 120 1000)).
  - simpl. lia.
  - reflexivity.
Defined.

Lemma one_block_between_calls_witness :
  outstanding
    (calls (run sizeof_int32 [op_resize 3 7; op_resize 20 7]
              (snd (construct sizeof_int32 10 (raw small_pool))))) =
    Some (held sizeof_int32
            (this (run sizeof_int32 [op_resize 3 7; op_resize 20 7]
                     (snd (construct sizeof_int32 10 (raw small_pool))))))
  /\ le (length (held sizeof_int32
                   (this (run sizeof_int32 [op_resize 3 7; op_resize 20 7]
                            (snd (construct sizeof_int32 10
                                    (raw small_pool)))))))
        1%nat.
Proof.
  apply (one_block_between_calls sizeof_int32 10
           [op_resize 3 7; op_resize 20 7] small_pool
           (snd (construct sizeof_int32 10 (raw small_pool)))).
  reflexivity.
Defined.

Lemma capacity_only_drops_on_release_witness :
  10 <= _capacity
          (this (run sizeof_int32 [op_resize 3 7; op_clear; op_resize 20 7]
                   (mk_machine (mk_host_buffer 3 10 1) (mk_pool 2 40 1000) []))).
Proof.
  apply (capacity_only_drops_on_release sizeof_int32
           [op_resize 3 7; op_clear; op_resize 20 7]
           (mk_machine (mk_host_buffer 3 10 1) (mk_pool 2 40 1000) [])).
  repeat (constructor; [exact I|]). constructor.
Defined.
